(** * Customers page ([src/pages/index.tsx]): handlers, fetcher and cache use

    A shallow embedding of the [Home] component of the customers page:
    the SWR [fetcher], the [handleCreate] and [handleDelete] handlers and
    the table rendering, as programs over the effects the component
    performs ([fetch], [mutate], [useSWR], [alert], [window.confirm], the
    React state setters).  The handlers are finite trees of effects; an
    environment answers each effect, and a run records the effects in
    program order.

    The first part holds the definitions: JavaScript values and strings,
    the component, runs, then the surroundings of the page (remote store
    and resource cache, which are not part of the page's source) and the
    vocabulary of the statements.  The second part holds the proofs: what
    the handlers do in every environment, and what follows in the modelled
    surroundings. *)

From Stdlib Require Import String Ascii DecimalString.
From Stdlib Require Import List ZArith NArith Bool Lia.
Import ListNotations.

Set Warnings "-register-all".

Open Scope N_scope.

(** ** JavaScript strings

    A JavaScript string is a sequence of UTF-16 code units. *)

Definition code_unit := N.
Definition jsstring := list code_unit.

(** A source literal (ASCII text) as a JavaScript string. *)
Definition js (s : string) : jsstring :=
  map N_of_ascii (list_ascii_of_string s).

Definition jsstring_eqb (a b : jsstring) : bool :=
  if list_eq_dec N.eq_dec a b then true else false.

(** ECMAScript [WhiteSpace] and [LineTerminator] code points, the set that
    [String.prototype.trim] strips. *)
Definition isWhiteSpace (c : code_unit) : bool :=
  (c =? 0x0009) || (c =? 0x000A) || (c =? 0x000B) || (c =? 0x000C) ||
  (c =? 0x000D) || (c =? 0x0020) || (c =? 0x00A0) || (c =? 0x1680) ||
  ((0x2000 <=? c) && (c <=? 0x200A)) ||
  (c =? 0x2028) || (c =? 0x2029) || (c =? 0x202F) || (c =? 0x205F) ||
  (c =? 0x3000) || (c =? 0xFEFF).

Fixpoint trimStart (s : jsstring) : jsstring :=
  match s with
  | [] => []
  | c :: rest => if isWhiteSpace c then trimStart rest else s
  end.

Definition trimEnd (s : jsstring) : jsstring :=
  rev (trimStart (rev s)).

(** [s.trim()] *)
Definition trim (s : jsstring) : jsstring :=
  trimEnd (trimStart s).

(** ** JavaScript values

    The values the component handles with type [any]: parsed JSON bodies,
    thrown values and [Error] instances.  Numbers are the integers below
    10^21 in absolute value, which print in plain decimal; beyond that
    JavaScript prints an exponent, which is not modelled. *)

Inductive jsval : Type :=
| VUndefined
| VNull
| VBool (b : bool)
| VNum (n : Z)
| VStr (s : jsstring)
| VArr (elems : list jsval)
| VObj (props : list (jsstring * jsval))
| VError (name message : jsstring).

(** The result of evaluating something that may throw. *)
Inductive Completion (A : Type) : Type :=
| Normal (v : A)
| Abrupt (thrown : jsval).

Arguments Normal {A} v.
Arguments Abrupt {A} thrown.

Definition typeError (message : jsstring) : jsval :=
  VError (js "TypeError") message.

(** [ToBoolean] *)
Definition toBoolean (v : jsval) : bool :=
  match v with
  | VUndefined | VNull => false
  | VBool b => b
  | VNum n => negb (n =? 0)%Z
  | VStr s => match s with [] => false | _ => true end
  | VArr _ | VObj _ | VError _ _ => true
  end.

Fixpoint lookup (name : jsstring) (props : list (jsstring * jsval)) : option jsval :=
  match props with
  | [] => None
  | (k, v) :: rest => if jsstring_eqb k name then Some v else lookup name rest
  end.

(** [v.name] for the property names the component reads ([message],
    [length], [businessName], [firstName], [lastName], [email]): own
    properties of an object, [message] and [name] of an Error, [length] of
    a string or an array, and [undefined] for a property the value does not
    have.  Reading a property of [undefined] or [null] throws a TypeError
    (with the text V8 gives it). *)
Definition getProp (v : jsval) (name : jsstring) : Completion jsval :=
  match v with
  | VUndefined =>
      Abrupt (typeError (js "Cannot read properties of undefined (reading '"
                           ++ name ++ js "')"))
  | VNull =>
      Abrupt (typeError (js "Cannot read properties of null (reading '"
                           ++ name ++ js "')"))
  | VObj props =>
      Normal (match lookup name props with Some x => x | None => VUndefined end)
  | VError n m =>
      Normal (if jsstring_eqb name (js "message") then VStr m
              else if jsstring_eqb name (js "name") then VStr n
              else VUndefined)
  | VStr s =>
      Normal (if jsstring_eqb name (js "length") then VNum (Z.of_nat (length s))
              else VUndefined)
  | VArr l =>
      Normal (if jsstring_eqb name (js "length") then VNum (Z.of_nat (length l))
              else VUndefined)
  | VBool _ | VNum _ => Normal VUndefined
  end.

(** [v?.name] *)
Definition optGet (v : jsval) (name : jsstring) : jsval :=
  match v with
  | VUndefined | VNull => VUndefined
  | _ => match getProp v name with Normal x => x | Abrupt _ => VUndefined end
  end.

(** [a || b] *)
Definition orElse (a b : jsval) : jsval :=
  if toBoolean a then a else b.

(** [a ?? b] *)
Definition nullish (a b : jsval) : jsval :=
  match a with
  | VUndefined | VNull => b
  | _ => a
  end.

(** [Number::toString] of an integer below 10^21 in absolute value: its
    decimal digits. *)
Definition numberToString (n : Z) : jsstring :=
  js (NilZero.string_of_int (Z.to_int n)).

Definition hasOwn (name : jsstring) (props : list (jsstring * jsval)) : bool :=
  match lookup name props with Some _ => true | None => false end.

(** [ToString].  A parsed JSON object has no callable property of its own,
    so one that carries its own [toString] (or [valueOf]) shadows the
    inherited method and the conversion throws a TypeError; any other plain
    object prints as [[object Object]].  An array joins its elements with
    commas, [null] and [undefined] elements printing as the empty string.
    [None] stands for the thrown TypeError. *)
Fixpoint toStringOpt (v : jsval) : option jsstring :=
  match v with
  | VUndefined => Some (js "undefined")
  | VNull => Some (js "null")
  | VBool true => Some (js "true")
  | VBool false => Some (js "false")
  | VNum n => Some (numberToString n)
  | VStr s => Some s
  | VArr elems =>
      (fix join (l : list jsval) : option jsstring :=
         match l with
         | [] => Some []
         | x :: rest =>
             let piece :=
               match x with
               | VUndefined | VNull => Some []
               | _ => toStringOpt x
               end in
             match piece, join rest with
             | Some p, Some q =>
                 Some (match rest with [] => p | _ :: _ => p ++ js "," ++ q end)
             | _, _ => None
             end
         end) elems
  | VObj props =>
      if hasOwn (js "toString") props then None
      else Some (js "[object Object]")
  | VError n m =>
      match n, m with
      | [], _ => Some m
      | _, [] => Some n
      | _, _ => Some (n ++ js ": " ++ m)
      end
  end.

Definition toString (v : jsval) : Completion jsstring :=
  match toStringOpt v with
  | Some s => Normal s
  | None => Abrupt (typeError (js "Cannot convert object to primitive value"))
  end.

(** ** [encodeURIComponent]

    Code units of the unreserved set are kept; every other code point is
    written as the percent-escaped octets of its UTF-8 form; an unpaired
    surrogate throws a URIError. *)

Definition inRange (lo hi c : N) : bool := (lo <=? c) && (c <=? hi).

Definition isUnreserved (c : code_unit) : bool :=
  inRange 0x41 0x5A c || inRange 0x61 0x7A c || inRange 0x30 0x39 c ||
  (c =? 0x2D) || (c =? 0x5F) || (c =? 0x2E) || (c =? 0x21) || (c =? 0x7E) ||
  (c =? 0x2A) || (c =? 0x27) || (c =? 0x28) || (c =? 0x29).

Definition isHighSurrogate (c : code_unit) : bool := inRange 0xD800 0xDBFF c.
Definition isLowSurrogate (c : code_unit) : bool := inRange 0xDC00 0xDFFF c.

Definition hexDigit (d : N) : code_unit :=
  if d <? 10 then 0x30 + d else 0x41 + (d - 10).

Definition percent (octet : N) : jsstring :=
  [0x25; hexDigit (octet / 16); hexDigit (octet mod 16)].

Definition utf8 (cp : N) : list N :=
  if cp <? 0x80 then [cp]
  else if cp <? 0x800 then
    [0xC0 + cp / 0x40; 0x80 + cp mod 0x40]
  else if cp <? 0x10000 then
    [0xE0 + cp / 0x1000; 0x80 + (cp / 0x40) mod 0x40; 0x80 + cp mod 0x40]
  else
    [0xF0 + cp / 0x40000; 0x80 + (cp / 0x1000) mod 0x40;
     0x80 + (cp / 0x40) mod 0x40; 0x80 + cp mod 0x40].

Definition escape (cp : N) : jsstring :=
  concat (map percent (utf8 cp)).

Fixpoint encodeOpt (s : jsstring) : option jsstring :=
  match s with
  | [] => Some []
  | c :: rest =>
      if isUnreserved c then option_map (cons c) (encodeOpt rest)
      else if isLowSurrogate c then None
      else if isHighSurrogate c then
        match rest with
        | d :: rest' =>
            if isLowSurrogate d then
              option_map
                (app (escape ((c - 0xD800) * 0x400 + (d - 0xDC00) + 0x10000)))
                (encodeOpt rest')
            else None
        | [] => None
        end
      else option_map (app (escape c)) (encodeOpt rest)
  end.

Definition encodeURIComponent (s : jsstring) : Completion jsstring :=
  match encodeOpt s with
  | Some r => Normal r
  | None => Abrupt (VError (js "URIError") (js "URI malformed"))
  end.

(** [new Error(message)]: a message other than [undefined] is converted
    with [ToString]. *)
Definition newError (message : jsval) : Completion jsval :=
  match message with
  | VUndefined => Normal (VError (js "Error") [])
  | _ =>
      match toString message with
      | Normal m => Normal (VError (js "Error") m)
      | Abrupt thrown => Abrupt thrown
      end
  end.

(** ** The types the page exports *)

(** [export type Customer] *)
Record Customer : Type := {
  firstName : jsstring;
  lastName : jsstring;
  businessName : option jsstring;
  email : jsstring
}.

(** [export type Customers = Customer[]] *)
Definition Customers : Type := list Customer.

(** [export type ApiError] *)
Record ApiError : Type := {
  code : jsstring;
  message : jsstring
}.

(** The JSON values of these types. *)
Definition customerToJs (c : Customer) : jsval :=
  VObj ([(js "firstName", VStr (firstName c));
         (js "lastName", VStr (lastName c))]
        ++ match businessName c with
           | Some b => [(js "businessName", VStr b)]
           | None => []
           end
        ++ [(js "email", VStr (email c))]).

Definition customersToJs (cs : Customers) : jsval :=
  VArr (map customerToJs cs).

Definition apiErrorToJs (e : ApiError) : jsval :=
  VObj [(js "code", VStr (code e)); (js "message", VStr (message e))].

(** ** The Fetch API

    A request as [fetch(url, init)] receives it.  The body is the value
    handed to [JSON.stringify]; its serialisation is not modelled. *)

Record Request : Type := {
  url : jsstring;
  method : jsstring;
  headers : list (jsstring * jsstring);
  body : option jsval
}.

(** What the component reads of a [Response]: [res.ok] (a status in the
    2xx range) and the outcome of [res.json()], the parsed body or the
    thrown parse error. *)
Record Response : Type := {
  ok : bool;
  json : Completion jsval
}.

(** The promise [fetch] returns rejects (a transport failure) or resolves
    with a response, whatever its status. *)
Inductive FetchOutcome : Type :=
| Rejected (reason : jsval)
| Responded (res : Response).

(** ** SWR and React

    What [useSWR] returns to the component. *)
Record SWRResponse : Type := {
  data : jsval;
  error : jsval;
  isLoading : bool
}.

(** ** Effects

    The calls the component makes into its surroundings, each indexed by
    the type of its answer. *)

Inductive Event : Type -> Type :=
| PreventDefault : Event unit
| Alert (message : jsval) : Event unit
| ConsoleError (v : jsval) : Event unit
| Confirm (message : jsstring) : Event bool
| Fetch (req : Request) : Event FetchOutcome
| Mutate (key : jsstring) : Event (Completion jsval)
| UseSWR (key : jsstring) : Event SWRResponse
| SetOpen (b : bool) : Event unit
| SetFirstName (s : jsstring) : Event unit
| SetLastName (s : jsstring) : Event unit
| SetBusinessName (s : jsstring) : Event unit
| SetEmail (s : jsstring) : Event unit.

(** A program: it returns, throws, or performs an effect and goes on with
    the answer. *)
Inductive Prog (A : Type) : Type :=
| Ret (a : A)
| Throw (thrown : jsval)
| Vis {X : Type} (e : Event X) (k : X -> Prog A).

Arguments Ret {A} a.
Arguments Throw {A} thrown.
Arguments Vis {A X} e k.

Fixpoint bind {A B : Type} (p : Prog A) (f : A -> Prog B) : Prog B :=
  match p with
  | Ret a => f a
  | Throw v => Throw v
  | Vis e k => Vis e (fun x => bind (k x) f)
  end.

(** [try { p } catch (err) { h err }] *)
Fixpoint tryCatch {A : Type} (p : Prog A) (h : jsval -> Prog A) : Prog A :=
  match p with
  | Ret a => Ret a
  | Throw v => h v
  | Vis e k => Vis e (fun x => tryCatch (k x) h)
  end.

Definition trigger {X : Type} (e : Event X) : Prog X := Vis e Ret.

Declare Scope prog_scope.
Delimit Scope prog_scope with prog.
Bind Scope prog_scope with Prog.

Notation "x <- p ;; q" := (bind p (fun x => q))
  (at level 61, p at next level, right associativity) : prog_scope.
Notation "p ;; q" := (bind p (fun _ => q))
  (at level 61, right associativity) : prog_scope.

Open Scope prog_scope.

(** A pure evaluation that may throw, inside a program. *)
Definition eval {A : Type} (c : Completion A) : Prog A :=
  match c with
  | Normal v => Ret v
  | Abrupt v => Throw v
  end.

(** [await fetch(req)] *)
Definition awaitFetch (req : Request) : Prog Response :=
  o <- trigger (Fetch req) ;;
  match o with
  | Rejected reason => Throw reason
  | Responded res => Ret res
  end.

(** [await mutate(key)] *)
Definition awaitMutate (key : jsstring) : Prog jsval :=
  c <- trigger (Mutate key) ;;
  eval c.

(** ** The component

    The state cells of the dialog form are the variables the handlers close
    over; [open] is only ever written. *)

Section Home.

Variables firstName lastName businessName email : jsstring.

(** [const fetcher = async (url) => ...] *)
Definition fetcher (url : jsstring) : Prog jsval :=
  res <- awaitFetch {| url := url; method := js "GET"; headers := [];
                       body := None |} ;;
  data <- eval (json res) ;;
  if negb (ok res) then Throw data
  else Ret data.

(** [const handleClose = () => ...] *)
Definition handleClose : Prog unit :=
  trigger (SetOpen false) ;;
  trigger (SetFirstName []) ;;
  trigger (SetLastName []) ;;
  trigger (SetBusinessName []) ;;
  trigger (SetEmail []).

(** [const handleCreate = async (e) => ...] *)
Definition handleCreate : Prog unit :=
  trigger PreventDefault ;;
  if negb (toBoolean (VStr (trim firstName)))
     || negb (toBoolean (VStr (trim lastName)))
     || negb (toBoolean (VStr (trim email)))
  then
    trigger (Alert (VStr (js "Please fill out first name, last name, and email.")))
  else
    tryCatch
      (response <- awaitFetch
         {| url := js "/api/customers";
            method := js "POST";
            headers := [(js "Content-Type", js "application/json")];
            body := Some (VObj [(js "firstName", VStr firstName);
                                (js "lastName", VStr lastName);
                                (js "businessName", VStr businessName);
                                (js "email", VStr email)]) |} ;;
       (if negb (ok response) then
          msg <- eval (json response) ;;
          err <- eval (newError (orElse (optGet msg (js "message"))
                                        (VStr (js "Error adding new customer")))) ;;
          Throw err
        else Ret tt) ;;
       awaitMutate (js "/api/customers") ;;
       handleClose)
      (fun err =>
         trigger (ConsoleError err) ;;
         m <- eval (getProp err (js "message")) ;;
         trigger (Alert m)).

(** [const handleDelete = async (custEmail) => ...] *)
Definition handleDelete (custEmail : jsstring) : Prog unit :=
  confirmed <- trigger (Confirm
    (js "Are you sure you want to delete customer with email: "
       ++ custEmail ++ js "?")) ;;
  if negb confirmed then Ret tt
  else
    tryCatch
      (encoded <- eval (encodeURIComponent custEmail) ;;
       response <- awaitFetch
         {| url := js "/api/customers?email=" ++ encoded;
            method := js "DELETE";
            headers := [];
            body := None |} ;;
       (if negb (ok response) then
          msg <- eval (json response) ;;
          err <- eval (newError (orElse (optGet msg (js "message"))
                                        (VStr (js "Error deleting customer")))) ;;
          Throw err
        else Ret tt) ;;
       awaitMutate (js "/api/customers") ;;
       Ret tt)
      (fun err =>
         trigger (ConsoleError err) ;;
         m <- eval (getProp err (js "message")) ;;
         trigger (Alert m)).

(** One table row: its React key, the two text cells and the email the
    delete button passes to [handleDelete]. *)
Record Row : Type := {
  rowKey : jsval;
  nameCell : jsval;
  emailCell : jsval;
  deleteArg : jsval
}.

(** The body of [customers.map((cust) => ...)] *)
Definition renderRow (cust : jsval) : Prog Row :=
  business <- eval (getProp cust (js "businessName")) ;;
  displayName <-
    (if toBoolean business then Ret business
     else
       first <- eval (getProp cust (js "firstName")) ;;
       firstText <- eval (toString first) ;;
       last <- eval (getProp cust (js "lastName")) ;;
       lastText <- eval (toString last) ;;
       Ret (VStr (firstText ++ js " " ++ lastText))) ;;
  mail <- eval (getProp cust (js "email")) ;;
  Ret {| rowKey := mail; nameCell := displayName; emailCell := mail;
         deleteArg := mail |}.

Fixpoint mapRows (custs : list jsval) : Prog (list Row) :=
  match custs with
  | [] => Ret []
  | cust :: rest =>
      r <- renderRow cust ;;
      rs <- mapRows rest ;;
      Ret (r :: rs)
  end.

(** [customers.map(...)]: only an array has [map]. *)
Definition renderRows (customers : jsval) : Prog (list Row) :=
  match customers with
  | VArr custs => mapRows custs
  | _ => Throw (typeError (js "customers.map is not a function"))
  end.

(** What the component renders from the cache: the count in the heading,
    the loading line, the error line and the table. *)
Record View : Type := {
  count : jsval;
  loadingLine : bool;
  errorLine : option jsval;
  table : option (list Row)
}.

(** The render pass of [Home]: [useSWR('/api/customers', fetcher)] and the
    returned markup. *)
Definition render : Prog View :=
  swr <- trigger (UseSWR (js "/api/customers")) ;;
  let customers := data swr in
  let heading := nullish (optGet customers (js "length")) (VNum 0) in
  errorText <-
    (if toBoolean (error swr) then
       m <- eval (getProp (error swr) (js "message")) ;;
       Ret (Some m)
     else Ret None) ;;
  rows <-
    (if toBoolean customers then
       rs <- renderRows customers ;;
       Ret (Some rs)
     else Ret None) ;;
  Ret {| count := heading; loadingLine := isLoading swr;
         errorLine := errorText; table := rows |}.

End Home.

(** ** Runs

    An environment answers every effect from its state [W].  A run threads
    the state through the program and records each effect with its answer,
    in program order. *)

Inductive Entry : Type :=
| EPreventDefault
| EAlert (message : jsval)
| EConsoleError (v : jsval)
| EConfirm (message : jsstring) (answer : bool)
| EFetch (req : Request) (answer : FetchOutcome)
| EMutate (key : jsstring) (answer : Completion jsval)
| EUseSWR (key : jsstring) (answer : SWRResponse)
| ESetOpen (b : bool)
| ESetFirstName (s : jsstring)
| ESetLastName (s : jsstring)
| ESetBusinessName (s : jsstring)
| ESetEmail (s : jsstring).

Definition entry {X : Type} (e : Event X) : X -> Entry :=
  match e in Event T return T -> Entry with
  | PreventDefault => fun _ => EPreventDefault
  | Alert m => fun _ => EAlert m
  | ConsoleError v => fun _ => EConsoleError v
  | Confirm m => fun a => EConfirm m a
  | Fetch req => fun a => EFetch req a
  | Mutate key => fun a => EMutate key a
  | UseSWR key => fun a => EUseSWR key a
  | SetOpen b => fun _ => ESetOpen b
  | SetFirstName s => fun _ => ESetFirstName s
  | SetLastName s => fun _ => ESetLastName s
  | SetBusinessName s => fun _ => ESetBusinessName s
  | SetEmail s => fun _ => ESetEmail s
  end.

Definition Env (W : Type) : Type := forall X : Type, Event X -> W -> X * W.

(** How a call ends: the promise of an async function resolves or rejects. *)
Inductive Outcome (A : Type) : Type :=
| Returned (a : A)
| Threw (thrown : jsval).

Arguments Returned {A} a.
Arguments Threw {A} thrown.

Record Run (W A : Type) : Type := {
  outcome : Outcome A;
  final : W;
  trace : list Entry
}.

Arguments outcome {W A} r.
Arguments final {W A} r.
Arguments trace {W A} r.

Fixpoint run {W A : Type} (env : Env W) (p : Prog A) (w : W) : Run W A :=
  match p with
  | Ret a => {| outcome := Returned a; final := w; trace := [] |}
  | Throw v => {| outcome := Threw v; final := w; trace := [] |}
  | Vis e k =>
      let (x, w1) := env _ e w in
      let r := run env (k x) w1 in
      {| outcome := outcome r; final := final r;
         trace := entry e x :: trace r |}
  end.

(** The traces and outcomes a program can have, whatever answers it. *)
Fixpoint Path {A : Type} (p : Prog A) (tr : list Entry) (o : Outcome A) : Prop :=
  match p with
  | Ret a => tr = [] /\ o = Returned a
  | Throw v => tr = [] /\ o = Threw v
  | Vis e k => exists x rest, tr = entry e x :: rest /\ Path (k x) rest o
  end.

(** ** The remote customer store *)

(** Modelled from the spec: the Remote Customer Store behind
    [/api/customers] (section 6; its route handler is not among the
    sources).  [list] returns the collection in store order; [create] takes
    the email as the natural key, rejects a duplicate and otherwise appends
    the record; [delete] removes the record with the given email and
    answers not-found when there is none.  A failure answers with an
    error body [{code, message}]. *)
Module Store.

Definition stringProp (v : jsval) (name : jsstring) : option jsstring :=
  match optGet v name with
  | VStr s => Some s
  | _ => None
  end.

Definition customerOfJs (v : jsval) : option Customer :=
  match stringProp v (js "firstName"), stringProp v (js "lastName"),
        stringProp v (js "email") with
  | Some f, Some l, Some e =>
      Some {| firstName := f; lastName := l;
              businessName := stringProp v (js "businessName");
              email := e |}
  | _, _, _ => None
  end.

Definition hasEmail (e : jsstring) (c : Customer) : bool :=
  jsstring_eqb (email c) e.

Definition failure (c m : string) : Response :=
  {| ok := false;
     json := Normal (apiErrorToJs {| code := js c; message := js m |}) |}.

(** Modelled from the spec: [list() -> Customer[]]. *)
Definition listAll (cs : Customers) : Response :=
  {| ok := true; json := Normal (customersToJs cs) |}.

(** Modelled from the spec: [create(firstName, lastName, businessName?,
    email) -> success | Error], duplicates of the email rejected. *)
Definition create (payload : option jsval) (cs : Customers)
  : Response * Customers :=
  match payload with
  | Some v =>
      match customerOfJs v with
      | Some c =>
          if existsb (hasEmail (email c)) cs
          then (failure "Conflict" "Customer already exists", cs)
          else ({| ok := true; json := Normal (customerToJs c) |}, cs ++ [c])
      | None => (failure "BadRequest" "Invalid customer", cs)
      end
  | None => (failure "BadRequest" "Invalid customer", cs)
  end.

(** The record is named by the percent-encoded email of the query string. *)
Definition named (query : jsstring) (c : Customer) : bool :=
  match encodeOpt (email c) with
  | Some q => jsstring_eqb q query
  | None => false
  end.

(** Modelled from the spec: [delete(email) -> success | Error]. *)
Definition delete (query : jsstring) (cs : Customers) : Response * Customers :=
  if existsb (named query) cs
  then ({| ok := true; json := Normal VNull |},
        filter (fun c => negb (named query c)) cs)
  else (failure "NotFound" "Customer not found", cs).

Fixpoint stripPrefix (prefix s : jsstring) : option jsstring :=
  match prefix, s with
  | [], _ => Some s
  | p :: prefix', c :: s' => if p =? c then stripPrefix prefix' s' else None
  | _ :: _, [] => None
  end.

(** Modelled from the spec: the three operations behind the requests the
    page sends. *)
Definition serve (req : Request) (cs : Customers) : Response * Customers :=
  if jsstring_eqb (url req) (js "/api/customers") then
    if jsstring_eqb (method req) (js "GET") then (listAll cs, cs)
    else if jsstring_eqb (method req) (js "POST") then create (body req) cs
    else (failure "MethodNotAllowed" "Method not allowed", cs)
  else
    match stripPrefix (js "/api/customers?email=") (url req) with
    | Some query =>
        if jsstring_eqb (method req) (js "DELETE") then delete query cs
        else (failure "MethodNotAllowed" "Method not allowed", cs)
    | None => (failure "NotFound" "Not found", cs)
    end.

End Store.

(** The store behind a network that is up or down; [requests] are the
    calls of [fetch], oldest first. *)
Record Remote : Type := {
  stored : Customers;
  online : bool;
  requests : list Request
}.

Definition network (req : Request) (r : Remote) : FetchOutcome * Remote :=
  if online r then
    let (res, cs) := Store.serve req (stored r) in
    (Responded res,
     {| stored := cs; online := true; requests := requests r ++ [req] |})
  else (Rejected (typeError (js "Failed to fetch")),
        {| stored := stored r; online := false;
           requests := requests r ++ [req] |}).

(** The network as an environment: it answers [fetch]; the other effects
    do not reach it. *)
Definition netEnv : Env Remote :=
  fun X e =>
    match e in Event T return Remote -> T * Remote with
    | Fetch req => network req
    | PreventDefault | Alert _ | ConsoleError _ | SetOpen _ | SetFirstName _
    | SetLastName _ | SetBusinessName _ | SetEmail _ => fun r => (tt, r)
    | Confirm _ => fun r => (false, r)
    | Mutate _ => fun r => (Normal VUndefined, r)
    | UseSWR _ =>
        fun r => ({| data := VUndefined; error := VUndefined;
                     isLoading := false |}, r)
    end.

(** One call of the [fetcher] that [useSWR] was given, as the cache makes
    it: the outcome of the promise and the store after the request. *)
Definition remoteRead (key : jsstring) (r : Remote) : Completion jsval * Remote :=
  let rn := run netEnv (fetcher key) r in
  (match outcome rn with
   | Returned v => Normal v
   | Threw thrown => Abrupt thrown
   end, final rn).

Definition isList (req : Request) : bool :=
  jsstring_eqb (method req) (js "GET")
  && jsstring_eqb (url req) (js "/api/customers").

(** How often the list operation was invoked. *)
Definition listCalls (r : Remote) : nat :=
  length (filter isList (requests r)).

(** ** The resource cache *)

(** Modelled from the spec: the Resource Cache that [useSWR] and [mutate]
    reach (sections 3, 4.1 and 5; the swr package is not among the
    sources).  One [CachedResource] per key with [value], [status], [error]
    and [inflightRequest]; at most one fetch in flight per key.  [fetch]
    attaches to the fetch in flight or starts one; [read] returns the
    snapshot and fetches when there is no entry (or a failed one);
    [invalidate] marks the entry stale and fetches again: when a fetch is in
    flight the follow-up fetch is started as that one settles, and the
    outcome of the overtaken fetch is dropped.  The remote call is made when
    a fetch starts; its outcome stays in transit until the fetch settles. *)
Module ResourceCache.

Inductive Status : Type := idle | loading | resolved | failed.

(** Modelled from the spec: [CachedResource<T>] of section 3, with the
    staleness mark that [invalidate] sets. *)
Record CachedResource : Type := {
  value : option jsval;
  status : Status;
  error : option jsval;
  inflightRequest : option nat;
  stale : bool
}.

(** The entries by key, the outcomes of the remote calls in flight by
    request identity, and the next identity to give out. *)
Record Cache : Type := {
  entries : list (jsstring * CachedResource);
  transit : list (nat * Completion jsval);
  nextRequest : nat
}.

Definition empty : Cache :=
  {| entries := []; transit := []; nextRequest := 0%nat |}.

Definition fresh : CachedResource :=
  {| value := None; status := idle; error := None; inflightRequest := None;
     stale := false |}.

Fixpoint find (key : jsstring) (es : list (jsstring * CachedResource))
  : option CachedResource :=
  match es with
  | [] => None
  | (k, e) :: rest => if jsstring_eqb k key then Some e else find key rest
  end.

Fixpoint put (key : jsstring) (e : CachedResource)
  (es : list (jsstring * CachedResource)) : list (jsstring * CachedResource) :=
  match es with
  | [] => [(key, e)]
  | (k, e') :: rest =>
      if jsstring_eqb k key then (k, e) :: rest else (k, e') :: put key e rest
  end.

Fixpoint arrived (id : nat) (t : list (nat * Completion jsval))
  : option (Completion jsval) :=
  match t with
  | [] => None
  | (i, c) :: rest => if Nat.eqb i id then Some c else arrived id rest
  end.

Definition isLoadingStatus (s : Status) : bool :=
  match s with loading => true | _ => false end.

(** The cache is well formed for [key]: request identities in transit are
    below the next one to be given out, and a loading entry waits on a
    request that is in transit. *)
Definition wellFormed (key : jsstring) (c : Cache) : Prop :=
  Forall (fun ic => (fst ic < nextRequest c)%nat) (transit c)
  /\ match find key (entries c) with
     | Some e =>
         isLoadingStatus (status e) = true ->
         exists id oc,
           inflightRequest e = Some id /\ arrived id (transit c) = Some oc
     | None => True
     end.

Section WithRemote.

Variable R : Type.
Variable remoteRead : jsstring -> R -> Completion jsval * R.

(** Start a fetch for [key]: one remote call, a new request identity. *)
Definition start (key : jsstring) (e : CachedResource) (st : R * Cache)
  : R * Cache :=
  let (c, s') := remoteRead key (fst st) in
  let id := nextRequest (snd st) in
  (s',
   {| entries :=
        put key {| value := value e; status := loading; error := error e;
                   inflightRequest := Some id; stale := false |}
            (entries (snd st));
      transit := transit (snd st) ++ [(id, c)];
      nextRequest := S id |}).

Definition entryOf (key : jsstring) (st : R * Cache) : CachedResource :=
  match find key (entries (snd st)) with
  | Some e => e
  | None => fresh
  end.

(** Modelled from the spec: [fetch(key)], answered with the request
    identity the caller waits on. *)
Definition fetch (key : jsstring) (st : R * Cache) : option nat * (R * Cache) :=
  let e := entryOf key st in
  if isLoadingStatus (status e) then (inflightRequest e, st)
  else
    let st' := start key e st in
    (inflightRequest (entryOf key st'), st').

(** Modelled from the spec: [read(key)], answered with the snapshot after
    the read. *)
Definition read (key : jsstring) (st : R * Cache) : CachedResource * (R * Cache) :=
  match find key (entries (snd st)) with
  | None =>
      let st' := snd (fetch key st) in
      (entryOf key st', st')
  | Some e =>
      match status e with
      | failed =>
          let st' := snd (fetch key st) in
          (entryOf key st', st')
      | _ => (e, st)
      end
  end.

(** Modelled from the spec: [invalidate(key)]. *)
Definition invalidate (key : jsstring) (st : R * Cache) : R * Cache :=
  let e := entryOf key st in
  if isLoadingStatus (status e) then
    (fst st,
     {| entries :=
          put key {| value := value e; status := status e; error := error e;
                     inflightRequest := inflightRequest e; stale := true |}
              (entries (snd st));
        transit := transit (snd st);
        nextRequest := nextRequest (snd st) |})
  else start key e st.

Definition settled (e : CachedResource) (c : Completion jsval) : CachedResource :=
  match c with
  | Normal v =>
      {| value := Some v; status := resolved; error := None;
         inflightRequest := None; stale := false |}
  | Abrupt thrown =>
      {| value := value e; status := failed; error := Some thrown;
         inflightRequest := None; stale := false |}
  end.

Definition landed (id : nat) (t : list (nat * Completion jsval))
  : list (nat * Completion jsval) :=
  filter (fun ic => negb (Nat.eqb (fst ic) id)) t.

(** Modelled from the spec: the fetch in flight for [key] completes. *)
Definition settle (key : jsstring) (st : R * Cache) : R * Cache :=
  let e := entryOf key st in
  match inflightRequest e with
  | Some id =>
      match arrived id (transit (snd st)) with
      | Some c =>
          let st1 :=
            (fst st,
             {| entries := entries (snd st);
                transit := landed id (transit (snd st));
                nextRequest := nextRequest (snd st) |}) in
          if stale e then start key e st1
          else
            (fst st1,
             {| entries := put key (settled e c) (entries (snd st1));
                transit := transit (snd st1);
                nextRequest := nextRequest (snd st1) |})
      | None => st
      end
  | None => st
  end.

(** Settle until nothing is in flight for [key]. *)
Fixpoint quiesce (fuel : nat) (key : jsstring) (st : R * Cache) : R * Cache :=
  match fuel with
  | O => st
  | S fuel' =>
      if isLoadingStatus (status (entryOf key st))
      then quiesce fuel' key (settle key st)
      else st
  end.

(** The entry for [key] is loading and waits on request [id]. *)
Definition attached (key : jsstring) (st : R * Cache) (id : nat) : Prop :=
  exists e, find key (entries (snd st)) = Some e
            /\ status e = loading
            /\ inflightRequest e = Some id.

(** A caller's [read] or [fetch], answered with the request identity it
    waits on. *)
Inductive Call : Type := ReadCall | FetchCall.

Definition call (key : jsstring) (c : Call) (st : R * Cache)
  : option nat * (R * Cache) :=
  match c with
  | ReadCall => let (e, st') := read key st in (inflightRequest e, st')
  | FetchCall => fetch key st
  end.

Fixpoint calls (key : jsstring) (cs : list Call) (st : R * Cache)
  : list (option nat) * (R * Cache) :=
  match cs with
  | [] => ([], st)
  | c :: rest =>
      let (t, st1) := call key c st in
      let (ts, st2) := calls key rest st1 in
      (t :: ts, st2)
  end.

End WithRemote.

End ResourceCache.

(** ** The page in its surroundings

    The state the effects of the page act on: the remote store, the cache,
    the user's answer to the confirmation prompt and the form cells. *)

Record Form : Type := {
  dialogOpen : bool;
  firstNameInput : jsstring;
  lastNameInput : jsstring;
  businessNameInput : jsstring;
  emailInput : jsstring
}.

Record World : Type := {
  remote : Remote;
  cache : ResourceCache.Cache;
  userConfirms : bool;
  form : Form
}.

Definition withCache (w : World) (st : Remote * ResourceCache.Cache) : World :=
  {| remote := fst st; cache := snd st; userConfirms := userConfirms w;
     form := form w |}.

Definition withForm (w : World) (f : Form) : World :=
  {| remote := remote w; cache := cache w; userConfirms := userConfirms w;
     form := f |}.

Definition swrResponse (e : ResourceCache.CachedResource) : SWRResponse :=
  {| data := match ResourceCache.value e with
             | Some v => v
             | None => VUndefined
             end;
     error := match ResourceCache.error e with
              | Some thrown => thrown
              | None => VUndefined
              end;
     isLoading :=
       ResourceCache.isLoadingStatus (ResourceCache.status e)
       && match ResourceCache.value e with Some _ => false | None => true end |}.

(** Modelled from the spec: [useSWR(key, fetcher)] of the swr package as a
    [read] of the Resource Cache (section 4.1), answered with [data],
    [error] and [isLoading] of the snapshot. *)
Definition useSWR (key : jsstring) (w : World) : SWRResponse * World :=
  let (e, st) := ResourceCache.read Remote remoteRead key (remote w, cache w) in
  (swrResponse e, withCache w st).

(** Modelled from the spec: [mutate(key)] of the swr package as
    [invalidate(key)] of the Resource Cache (sections 4.1 and 4.2); its
    promise resolves, with the cached data, once the fetches it caused have
    settled. *)
Definition mutate (key : jsstring) (w : World) : Completion jsval * World :=
  let st := ResourceCache.quiesce Remote remoteRead 2 key
              (ResourceCache.invalidate Remote remoteRead key
                 (remote w, cache w)) in
  (Normal (data (swrResponse (ResourceCache.entryOf Remote key st))),
   withCache w st).

(** The surroundings as an environment: [fetch] goes to the network,
    [mutate] and [useSWR] to the cache, the prompt to the user and the
    setters to the form. *)
Definition simEnv : Env World :=
  fun X e =>
    match e in Event T return World -> T * World with
    | PreventDefault | Alert _ | ConsoleError _ => fun w => (tt, w)
    | Confirm _ => fun w => (userConfirms w, w)
    | Fetch req =>
        fun w =>
          let (o, r) := network req (remote w) in
          (o, withCache w (r, cache w))
    | Mutate key => mutate key
    | UseSWR key => useSWR key
    | SetOpen b =>
        fun w => (tt, withForm w
          {| dialogOpen := b; firstNameInput := firstNameInput (form w);
             lastNameInput := lastNameInput (form w);
             businessNameInput := businessNameInput (form w);
             emailInput := emailInput (form w) |})
    | SetFirstName s =>
        fun w => (tt, withForm w
          {| dialogOpen := dialogOpen (form w); firstNameInput := s;
             lastNameInput := lastNameInput (form w);
             businessNameInput := businessNameInput (form w);
             emailInput := emailInput (form w) |})
    | SetLastName s =>
        fun w => (tt, withForm w
          {| dialogOpen := dialogOpen (form w);
             firstNameInput := firstNameInput (form w); lastNameInput := s;
             businessNameInput := businessNameInput (form w);
             emailInput := emailInput (form w) |})
    | SetBusinessName s =>
        fun w => (tt, withForm w
          {| dialogOpen := dialogOpen (form w);
             firstNameInput := firstNameInput (form w);
             lastNameInput := lastNameInput (form w); businessNameInput := s;
             emailInput := emailInput (form w) |})
    | SetEmail s =>
        fun w => (tt, withForm w
          {| dialogOpen := dialogOpen (form w);
             firstNameInput := firstNameInput (form w);
             lastNameInput := lastNameInput (form w);
             businessNameInput := businessNameInput (form w);
             emailInput := s |})
    end.

(** The scenario of the spec: one customer in the store, nothing cached,
    the dialog open on a filled form. *)
Definition customerA : Customer :=
  {| firstName := js "A"; lastName := js "B"; businessName := Some [];
     email := js "a@x.com" |}.

Definition customerC : Customer :=
  {| firstName := js "C"; lastName := js "D"; businessName := Some [];
     email := js "c@x.com" |}.

Definition world0 : World :=
  {| remote := {| stored := [customerA]; online := true; requests := [] |};
     cache := ResourceCache.empty;
     userConfirms := true;
     form := {| dialogOpen := true; firstNameInput := js "C";
                lastNameInput := js "D"; businessNameInput := [];
                emailInput := js "c@x.com" |} |}.

(** ** Vocabulary of the statements *)

Definition customersKey : jsstring := js "/api/customers".

(** The request [handleCreate] sends. *)
Definition createRequest (firstName lastName businessName email : jsstring)
  : Request :=
  {| url := js "/api/customers";
     method := js "POST";
     headers := [(js "Content-Type", js "application/json")];
     body := Some (VObj [(js "firstName", VStr firstName);
                         (js "lastName", VStr lastName);
                         (js "businessName", VStr businessName);
                         (js "email", VStr email)]) |}.

(** The request [handleDelete] sends for an encoded email. *)
Definition deleteRequest (encoded : jsstring) : Request :=
  {| url := js "/api/customers?email=" ++ encoded;
     method := js "DELETE";
     headers := [];
     body := None |}.

Definition confirmPrompt (custEmail : jsstring) : jsstring :=
  js "Are you sure you want to delete customer with email: "
    ++ custEmail ++ js "?".

(** The alert of the form validation. *)
Definition validationAlert : Entry :=
  EAlert (VStr (js "Please fill out first name, last name, and email.")).

Definition isEmpty (s : jsstring) : bool :=
  match s with [] => true | _ :: _ => false end.

Definition isMutate (e : Entry) : bool :=
  match e with EMutate _ _ => true | _ => false end.

(** A remote call that failed: the transport rejected, or the store
    answered outside 2xx. *)
Definition failedCall (e : Entry) : bool :=
  match e with
  | EFetch _ (Rejected _) => true
  | EFetch _ (Responded res) => negb (ok res)
  | _ => false
  end.

(** Effects that reach the cache: [mutate] and [useSWR]. *)
Definition reachesCache (e : Entry) : bool :=
  match e with
  | EMutate _ _ | EUseSWR _ _ => true
  | _ => false
  end.

(** Effects that reach the remote store: [fetch], and the cache's own
    fetches. *)
Definition reachesStore (e : Entry) : bool :=
  match e with
  | EFetch _ _ | EMutate _ _ | EUseSWR _ _ => true
  | _ => false
  end.

(** A trace that reaches neither the store nor the cache. *)
Definition quiet (tr : list Entry) : bool :=
  forallb (fun e => negb (reachesStore e)) tr.

(** A trace without invalidation. *)
Definition noMutate (tr : list Entry) : bool :=
  forallb (fun e => negb (isMutate e)) tr.

(** An environment keeps [view] of its state through every effect outside
    [reaches]. *)
Definition Frames {W V : Type} (env : Env W) (view : W -> V)
  (reaches : Entry -> bool) : Prop :=
  forall (X : Type) (e : Event X) (w : W),
    reaches (entry e (fst (env X e w))) = false ->
    view (snd (env X e w)) = view w.

(** A remote write: the POST of a create, the DELETE of a remove. *)
Definition isWrite (req : Request) : bool :=
  jsstring_eqb (method req) (js "POST")
  || jsstring_eqb (method req) (js "DELETE").

(** Every invalidation in the trace comes directly after the success
    response to a remote write, and nothing reached the store or the cache
    before that write. *)
Definition invalidationFollowsSuccess (tr : list Entry) : Prop :=
  forall pre key c post,
    tr = pre ++ EMutate key c :: post ->
    exists pre' req res,
      pre = pre' ++ [EFetch req (Responded res)]
      /\ isWrite req = true
      /\ ok res = true
      /\ quiet pre' = true.

(** A trace with a failed remote call holds no invalidation. *)
Definition noInvalidationOnFailure (tr : list Entry) : Prop :=
  forall e, In e tr -> failedCall e = true ->
    forall key c, ~ In (EMutate key c) tr.

(** What the catch block of either handler does with the thrown value:
    [console.error(err); alert((err as Error).message)]. *)
Definition caught (thrown : jsval) : list Entry * Outcome unit :=
  match getProp thrown (js "message") with
  | Normal m => ([EConsoleError thrown; EAlert m], Returned tt)
  | Abrupt t => ([EConsoleError thrown], Threw t)
  end.

(** The value a handler throws on a response that is not ok. *)
Definition refusal (fallback : jsstring) (res : Response) : jsval :=
  match json res with
  | Abrupt thrown => thrown
  | Normal msg =>
      match newError (orElse (optGet msg (js "message")) (VStr fallback)) with
      | Normal err => err
      | Abrupt thrown => thrown
      end
  end.

(** The effects of [handleClose]. *)
Definition closing : list Entry :=
  [ESetOpen false; ESetFirstName []; ESetLastName []; ESetBusinessName [];
   ESetEmail []].

(** How a handler goes on after the answer to its remote write: the trace
    from there and the outcome of the call. *)
Inductive AfterWrite (fallback : jsstring) (last : list Entry)
  : FetchOutcome -> list Entry -> Outcome unit -> Prop :=
| transportFailed reason :
    AfterWrite fallback last (Rejected reason)
      (fst (caught reason)) (snd (caught reason))
| remoteFailed res :
    ok res = false ->
    AfterWrite fallback last (Responded res)
      (fst (caught (refusal fallback res)))
      (snd (caught (refusal fallback res)))
| invalidateFailed res thrown :
    ok res = true ->
    AfterWrite fallback last (Responded res)
      (EMutate customersKey (Abrupt thrown) :: fst (caught thrown))
      (snd (caught thrown))
| invalidated res v :
    ok res = true ->
    AfterWrite fallback last (Responded res)
      (EMutate customersKey (Normal v) :: last) (Returned tt).

(** The required fields of the form, as the validation sees them. *)
Definition blank (firstName lastName email : jsstring) : bool :=
  isEmpty (trim firstName) || isEmpty (trim lastName) || isEmpty (trim email).

(** What a handler surfaces of a failure: the console line and the alert. *)
Definition isReport (e : Entry) : bool :=
  match e with
  | EAlert _ | EConsoleError _ => true
  | _ => false
  end.

Definition reports (tr : list Entry) : list Entry := filter isReport tr.

(** The text a handler shows for the store's error [err]. *)
Definition shown (fallback : jsstring) (err : ApiError) : jsstring :=
  if isEmpty (message err) then fallback else message err.

(** Surroundings that answer every [fetch] with [answer], confirm every
    prompt and hold no state. *)
Definition answering (answer : FetchOutcome) : Env unit :=
  fun X e =>
    match e in Event T return unit -> T * unit with
    | Fetch _ => fun u => (answer, u)
    | PreventDefault | Alert _ | ConsoleError _ | SetOpen _ | SetFirstName _
    | SetLastName _ | SetBusinessName _ | SetEmail _ => fun u => (tt, u)
    | Confirm _ => fun u => (true, u)
    | Mutate _ => fun u => (Normal VUndefined, u)
    | UseSWR _ =>
        fun u => ({| data := VUndefined; error := VUndefined;
                     isLoading := false |}, u)
    end.

(** The store rejecting with the error [{code, message}]. *)
Definition rejecting (c m : string) : FetchOutcome :=
  Responded {| ok := false;
               json := Normal (apiErrorToJs {| code := js c; message := js m |}) |}.

(** The request the [fetcher] sends for the customers key. *)
Definition listRequest : Request :=
  {| url := customersKey; method := js "GET"; headers := []; body := None |}.

(** The customer a form stands for. *)
Definition customerOfForm (firstName lastName businessName email : jsstring)
  : Customer :=
  {| firstName := firstName; lastName := lastName;
     businessName := Some businessName; email := email |}.

(** The cache of a world with its store, as the cache operations take it. *)
Definition cacheState (w : World) : Remote * ResourceCache.Cache :=
  (remote w, cache w).

(** The fetch in flight for [key] settles ([settle] of the modelled
    cache). *)
Definition settles (key : jsstring) (w : World) : World :=
  withCache w (ResourceCache.settle Remote remoteRead key (cacheState w)).

(** The table row of a customer: the business name when there is one,
    else first and last name. *)
Definition customerRow (c : Customer) : Row :=
  {| rowKey := VStr (email c);
     nameCell :=
       match businessName c with
       | Some (x :: b) => VStr (x :: b)
       | _ => VStr (firstName c ++ js " " ++ lastName c)
       end;
     emailCell := VStr (email c);
     deleteArg := VStr (email c) |}.

(** The first render of the page in [world0]: the list is being fetched. *)
Definition worldLoading : World := final (run simEnv render world0).

(** Every effect a program can perform satisfies [P]. *)
Fixpoint Performs {A : Type} (P : forall X : Type, Event X -> Prop)
  (p : Prog A) : Prop :=
  match p with
  | Ret _ | Throw _ => True
  | Vis e k => P _ e /\ forall x, Performs P (k x)
  end.

(** The only cache key the page names is the customers key. *)
Definition onCustomersKey (X : Type) (e : Event X) : Prop :=
  match e with
  | Mutate key | UseSWR key => key = customersKey
  | _ => True
  end.

(** The store of [world0] once customer C was added behind the back of the
    fetch in flight. *)
Definition remoteAfterCreate : Remote :=
  {| stored := [customerA; customerC]; online := true;
     requests := requests (remote worldLoading) |}.

(** A world in which the store already holds the customer of the form. *)
Definition worldTaken : World :=
  {| remote := {| stored := [customerA; customerC]; online := true;
                  requests := [] |};
     cache := ResourceCache.empty;
     userConfirms := true;
     form := form world0 |}.

(** The world of the scenario with a user who answers no. *)
Definition worldDeclining : World :=
  {| remote := remote world0; cache := cache world0; userConfirms := false;
     form := form world0 |}.

(** ** The rest of the component *)

(** [const handleOpen = () => setOpen(true)] *)
Definition handleOpen : Prog unit := trigger (SetOpen true).

(** The four text fields of the dialog. *)
Inductive Field : Type :=
| FirstNameField
| LastNameField
| BusinessNameField
| EmailField.

(** The [onChange] handlers of the text fields,
    [(e) => setFirstName(e.target.value)] and the like, at the value of the
    input. *)
Definition onChange (field : Field) (value : jsstring) : Prog unit :=
  match field with
  | FirstNameField => trigger (SetFirstName value)
  | LastNameField => trigger (SetLastName value)
  | BusinessNameField => trigger (SetBusinessName value)
  | EmailField => trigger (SetEmail value)
  end.

(** A user typing: one [onChange] after the other. *)
Fixpoint typing (edits : list (Field * jsstring)) : Prog unit :=
  match edits with
  | [] => Ret tt
  | (field, value) :: rest => onChange field value ;; typing rest
  end.

(** ** Vocabulary of the further statements *)

(** A state setter of [useState] replaces its cell; no other effect of the
    page writes the form. *)
Definition setCell (f : Form) (e : Entry) : Form :=
  match e with
  | ESetOpen b =>
      {| dialogOpen := b; firstNameInput := firstNameInput f;
         lastNameInput := lastNameInput f;
         businessNameInput := businessNameInput f;
         emailInput := emailInput f |}
  | ESetFirstName s =>
      {| dialogOpen := dialogOpen f; firstNameInput := s;
         lastNameInput := lastNameInput f;
         businessNameInput := businessNameInput f;
         emailInput := emailInput f |}
  | ESetLastName s =>
      {| dialogOpen := dialogOpen f; firstNameInput := firstNameInput f;
         lastNameInput := s;
         businessNameInput := businessNameInput f;
         emailInput := emailInput f |}
  | ESetBusinessName s =>
      {| dialogOpen := dialogOpen f; firstNameInput := firstNameInput f;
         lastNameInput := lastNameInput f;
         businessNameInput := s;
         emailInput := emailInput f |}
  | ESetEmail s =>
      {| dialogOpen := dialogOpen f; firstNameInput := firstNameInput f;
         lastNameInput := lastNameInput f;
         businessNameInput := businessNameInput f;
         emailInput := s |}
  | _ => f
  end.

(** The form cells after the setters of a trace, in order. *)
Definition formAfter (tr : list Entry) (f : Form) : Form :=
  fold_left setCell tr f.

(** The form with every field empty. *)
Definition emptyForm (isOpen : bool) : Form :=
  {| dialogOpen := isOpen; firstNameInput := []; lastNameInput := [];
     businessNameInput := []; emailInput := [] |}.

Definition isFetchEntry (e : Entry) : bool :=
  match e with EFetch _ _ => true | _ => false end.

(** An invalidation that resolved. *)
Definition isInvalidated (e : Entry) : bool :=
  match e with EMutate _ (Normal _) => true | _ => false end.

(** A call that went through: its write was answered with success and the
    invalidation resolved. *)
Definition succeeded (tr : list Entry) : bool := existsb isInvalidated tr.

(** [undefined] and [null], the values without properties. *)
Definition isNullish (v : jsval) : bool :=
  match v with VUndefined | VNull => true | _ => false end.

(** The rows a view shows. *)
Definition rowsOf (v : View) : list Row :=
  match table v with Some rows => rows | None => [] end.

(** An array, the only value [customers.map] is called on. *)
Definition isArray (v : jsval) : bool :=
  match v with VArr _ => true | _ => false end.

(** The answer of [useSWR] in a render. *)
Definition swrOf {W : Type} (env : Env W) (w : W) : SWRResponse :=
  fst (env SWRResponse (UseSWR customersKey) w).

(** A UTF-16 code unit. *)
Definition isCodeUnit (c : N) : bool := c <? 0x10000.

(** The characters a percent-encoded component is made of: the unreserved
    ones and the percent sign. *)
Definition urlSafe (c : code_unit) : bool := isUnreserved c || (c =? 0x25).

Definition isSurrogate (c : code_unit) : bool :=
  isHighSurrogate c || isLowSurrogate c.

(** The code units of a code point: itself in the basic plane, a
    surrogate pair above it. *)
Definition units (cp : N) : jsstring :=
  if cp <? 0x10000 then [cp]
  else [0xD800 + (cp - 0x10000) / 0x400; 0xDC00 + (cp - 0x10000) mod 0x400].

(** Surroundings that answer every [useSWR] with [swr] and hold no
    state. *)
Definition cached (swr : SWRResponse) : Env unit :=
  fun X e =>
    match e in Event T return unit -> T * unit with
    | UseSWR _ => fun u => (swr, u)
    | Fetch _ => fun u => (Rejected VUndefined, u)
    | PreventDefault | Alert _ | ConsoleError _ | SetOpen _ | SetFirstName _
    | SetLastName _ | SetBusinessName _ | SetEmail _ => fun u => (tt, u)
    | Confirm _ => fun u => (true, u)
    | Mutate _ => fun u => (Normal VUndefined, u)
    end.

(** An answer that throws [thrown] at a handler: a rejected [fetch], a
    response outside 2xx whose body cannot be read, a rejected [mutate]. *)
Definition failsWith (thrown : jsval) (e : Entry) : Prop :=
  match e with
  | EFetch _ (Rejected reason) => reason = thrown
  | EFetch _ (Responded res) => ok res = false /\ json res = Abrupt thrown
  | EMutate _ (Abrupt t) => t = thrown
  | _ => False
  end.

(** Answers of [useSWR] for the scenarios: the list of two customers; the
    list of one customer kept beside the error of a failed refresh; an
    object cached where the list should be. *)
Definition swrListed : SWRResponse :=
  {| data := customersToJs [customerA; customerC]; error := VUndefined;
     isLoading := false |}.

Definition swrStale : SWRResponse :=
  {| data := customersToJs [customerA];
     error := apiErrorToJs {| code := js "Unavailable";
                              message := js "Store is down" |};
     isLoading := false |}.

Definition swrObject : SWRResponse :=
  {| data := VObj [(js "customers", VArr [])]; error := VUndefined;
     isLoading := false |}.

Definition viewListed : View :=
  {| count := VNum 2; loadingLine := false; errorLine := None;
     table := Some [customerRow customerA; customerRow customerC] |}.

(** A [fetch] that fails as browsers report a network failure. *)
Definition failedToFetch : jsval :=
  VError (js "TypeError") (js "Failed to fetch").

(** The TypeError of reading [message] of [undefined] or [null] (with the
    text V8 gives it). *)
Definition messageReadError (thrown : jsval) : jsval :=
  typeError (js "Cannot read properties of "
             ++ match thrown with VNull => js "null" | _ => js "undefined" end
             ++ js " (reading 'message')").

(** A cached list that is out of date: the entry is resolved with the
    list of customer A alone, while the store holds C, C again and A, in
    that order. *)
Definition staleEntry : ResourceCache.CachedResource :=
  {| ResourceCache.value := Some (customersToJs [customerA]);
     ResourceCache.status := ResourceCache.resolved;
     ResourceCache.error := None;
     ResourceCache.inflightRequest := None;
     ResourceCache.stale := false |}.

Definition worldStale : World :=
  {| remote := {| stored := [customerC; customerC; customerA]; online := true;
                  requests := [] |};
     cache := {| ResourceCache.entries := [(customersKey, staleEntry)];
                 ResourceCache.transit := [];
                 ResourceCache.nextRequest := 1%nat |};
     userConfirms := true;
     form := form world0 |}.

(** * Proofs *)

Arguments trim : simpl never.
Arguments getProp : simpl never.
Arguments optGet : simpl never.
Arguments orElse : simpl never.
Arguments toString : simpl never.
Arguments newError : simpl never.
Arguments encodeURIComponent : simpl never.
Arguments js : simpl never.

(** ** Trimming *)

Lemma trimStart_blank (s : jsstring) :
  forallb isWhiteSpace s = true -> trimStart s = [].
Proof.
  induction s as [|c s IH]; simpl; intros H; [reflexivity|].
  apply andb_true_iff in H as [Hc Hs]. rewrite Hc. auto.
Qed.

Lemma trimStart_nil (s : jsstring) :
  trimStart s = [] -> forallb isWhiteSpace s = true.
Proof.
  induction s as [|c s IH]; simpl; [reflexivity|].
  destruct (isWhiteSpace c); [auto|discriminate].
Qed.

Lemma trim_blank (s : jsstring) :
  forallb isWhiteSpace s = true -> trim s = [].
Proof.
  intros H. unfold trim, trimEnd. rewrite (trimStart_blank s H). reflexivity.
Qed.

Lemma trimStart_head (s : jsstring) c t :
  trimStart s = c :: t -> isWhiteSpace c = false.
Proof.
  induction s as [|d s IH]; simpl; [discriminate|].
  destruct (isWhiteSpace d) eqn:E; [auto|].
  intros H. injection H as -> _. exact E.
Qed.

Lemma trim_nil (s : jsstring) :
  trim s = [] -> forallb isWhiteSpace s = true.
Proof.
  unfold trim, trimEnd. intros H.
  apply trimStart_nil.
  destruct (trimStart s) as [|c t] eqn:E; [reflexivity|].
  assert (Hr : trimStart (rev (c :: t)) = []).
  { rewrite <- (rev_involutive (trimStart (rev (c :: t)))), H. reflexivity. }
  apply trimStart_nil in Hr. rewrite forallb_forall in Hr.
  specialize (Hr c). rewrite (trimStart_head s c t E) in Hr.
  discriminate Hr. apply in_rev. rewrite rev_involutive. left. reflexivity.
Qed.

(** A field passes the validation exactly when it holds a character that
    is not white space. *)
Lemma blank_iff (s : jsstring) :
  negb (toBoolean (VStr (trim s))) = forallb isWhiteSpace s.
Proof.
  destruct (forallb isWhiteSpace s) eqn:E.
  - rewrite (trim_blank s E). reflexivity.
  - destruct (trim s) eqn:T; [|reflexivity].
    apply trim_nil in T. congruence.
Qed.

(** ** Runs and paths *)

Lemma run_path {W A : Type} (env : Env W) (p : Prog A) :
  forall w, Path p (trace (run env p w)) (outcome (run env p w)).
Proof.
  induction p as [a|v|X e k IH]; intros w; simpl.
  - auto.
  - auto.
  - destruct (env X e w) as [x w1]. simpl.
    exists x, (trace (run env (k x) w1)). split; [reflexivity|apply IH].
Qed.

Ltac path_cases H :=
  repeat (cbn in H;
    match type of H with
    | exists _, _ => let x := fresh "x" in let rest := fresh "rest" in
                     destruct H as (x & rest & -> & H)
    | _ /\ _ => destruct H as [-> ->]
    | Path (match ?x with _ => _ end) _ _ => destruct x eqn:?
    | Path (bind (match ?x with _ => _ end) _) _ _ => destruct x eqn:?
    | Path (tryCatch (match ?x with _ => _ end) _) _ _ => destruct x eqn:?
    | Path (tryCatch (bind (match ?x with _ => _ end) _) _) _ _ => destruct x eqn:?
    | Path (tryCatch (bind (bind (match ?x with _ => _ end) _) _) _) _ _ => destruct x eqn:?
    end);
  repeat match goal with u : unit |- _ => destruct u end.

Lemma blank_spec fn ln em :
  negb (toBoolean (VStr (trim fn))) || negb (toBoolean (VStr (trim ln)))
  || negb (toBoolean (VStr (trim em))) = blank fn ln em.
Proof.
  unfold blank. destruct (trim fn), (trim ln), (trim em); reflexivity.
Qed.

(** ** The shape of the handlers' runs *)

Lemma caught_normal thrown m :
  getProp thrown (js "message") = Normal m ->
  caught thrown = ([EConsoleError thrown; EAlert m], Returned tt).
Proof. intros H. unfold caught. rewrite H. reflexivity. Qed.

Lemma caught_abrupt thrown t :
  getProp thrown (js "message") = Abrupt t ->
  caught thrown = ([EConsoleError thrown], Threw t).
Proof. intros H. unfold caught. rewrite H. reflexivity. Qed.

Ltac settle_with T :=
  repeat match goal with
    | E : getProp _ _ = Normal _ |- _ =>
        rewrite (caught_normal _ _ E) in T; clear E
    | E : getProp _ _ = Abrupt _ |- _ =>
        rewrite (caught_abrupt _ _ E) in T; clear E
    | E : json _ = _ |- _ => rewrite E in T; clear E
    | E : newError _ = _ |- _ => rewrite E in T; clear E
    end;
  exact T.

Lemma tryCatch_returns {A : Type} (p : Prog A) (h : jsval -> Prog A) :
  (forall tr o, Path p tr o -> exists a, o = Returned a) ->
  forall tr o, Path (tryCatch p h) tr o -> Path p tr o.
Proof.
  induction p as [a|t|X e k IH]; intros Hp tr o H; cbn in *.
  - exact H.
  - destruct (Hp [] (Threw t)) as [a Ha]; [auto|discriminate Ha].
  - destruct H as (x & r & -> & H). exists x, r. split; [reflexivity|].
    apply IH; [|exact H].
    intros tr0 o0 H0. apply (Hp (entry e x :: tr0) o0).
    exists x, tr0. auto.
Qed.

Lemma after_write_paths fallback last answer tr o :
  Path
    (tryCatch
       (response <- match answer with
                    | Rejected reason => Throw reason
                    | Responded res => Ret res
                    end ;;
        (if negb (ok response) then
           msg <- eval (json response) ;;
           err <- eval (newError (orElse (optGet msg (js "message"))
                                         (VStr fallback))) ;;
           Throw err
         else Ret tt) ;;
        awaitMutate (js "/api/customers") ;;
        last)
       (fun err =>
          trigger (ConsoleError err) ;;
          m <- eval (getProp err (js "message")) ;;
          trigger (Alert m))) tr o ->
  forall lastEntries,
    (forall tr' o', Path last tr' o' -> tr' = lastEntries /\ o' = Returned tt) ->
    AfterWrite fallback lastEntries answer tr o.
Proof.
  intros H lastEntries Hlast. unfold awaitMutate, eval in H.
  destruct answer as [reason|res].
  - pose proof (transportFailed fallback lastEntries reason) as T.
    path_cases H; settle_with T.
  - destruct (ok res) eqn:Hok.
    + cbn in H. rewrite Hok in H. cbn in H.
      destruct H as (c & rest & -> & H).
      destruct c as [v|thrown].
      * cbn in H.
        apply tryCatch_returns in H.
        2:{ intros tr0 o0 H0. exists tt. apply (Hlast _ _ H0). }
        destruct (Hlast _ _ H) as [-> ->].
        apply invalidated. exact Hok.
      * pose proof (invalidateFailed fallback lastEntries res thrown Hok) as T.
        path_cases H; settle_with T.
    + pose proof (remoteFailed fallback lastEntries res Hok) as T.
      unfold refusal in T. cbn in H. rewrite Hok in H.
      path_cases H; settle_with T.
Qed.

Lemma handleClose_paths tr o :
  Path handleClose tr o -> tr = closing /\ o = Returned tt.
Proof.
  intros H. unfold handleClose in H. path_cases H. split; reflexivity.
Qed.

Lemma handleCreate_paths fn ln bn em tr o :
  Path (handleCreate fn ln bn em) tr o ->
  if blank fn ln em
  then tr = [EPreventDefault; validationAlert] /\ o = Returned tt
  else exists answer rest,
         tr = EPreventDefault :: EFetch (createRequest fn ln bn em) answer :: rest
         /\ AfterWrite (js "Error adding new customer") closing answer rest o.
Proof.
  intros H. unfold handleCreate in H. rewrite blank_spec in H.
  cbn in H. destruct H as (x & rest & -> & H).
  destruct (blank fn ln em).
  - path_cases H. split; reflexivity.
  - unfold awaitFetch in H. cbn in H.
    destruct H as (answer & rest' & -> & H).
    exists answer, rest'. split; [reflexivity|].
    apply (after_write_paths _ handleClose); [exact H|].
    exact handleClose_paths.
Qed.

Lemma handleDelete_paths custEmail tr o :
  Path (handleDelete custEmail) tr o ->
  exists confirmed rest,
    tr = EConfirm (confirmPrompt custEmail) confirmed :: rest
    /\ if confirmed then
         match encodeURIComponent custEmail with
         | Normal encoded =>
             exists answer rest',
               rest = EFetch (deleteRequest encoded) answer :: rest'
               /\ AfterWrite (js "Error deleting customer") [] answer rest' o
         | Abrupt thrown => rest = fst (caught thrown) /\ o = snd (caught thrown)
         end
       else rest = [] /\ o = Returned tt.
Proof.
  intros H. unfold handleDelete in H. cbn in H.
  destruct H as (confirmed & rest & -> & H).
  exists confirmed, rest. split; [reflexivity|].
  destruct confirmed; cbn in H.
  - unfold eval at 1 in H.
    destruct (encodeURIComponent custEmail) as [encoded|thrown].
    + unfold awaitFetch in H. cbn in H.
      destruct H as (answer & rest' & -> & H).
      exists answer, rest'. split; [reflexivity|].
      apply (after_write_paths _ (Ret tt)); [exact H|].
      cbn. intros tr' o' [-> ->]. split; reflexivity.
    + unfold eval in H. path_cases H.
      * rewrite (caught_normal _ _ Heqc). split; reflexivity.
      * rewrite (caught_abrupt _ _ Heqc). split; reflexivity.
  - destruct H as [-> ->]. split; reflexivity.
Qed.

(** ** Traces without effects on the store or the cache *)

Lemma caught_quiet thrown : quiet (fst (caught thrown)) = true.
Proof. unfold caught. destruct (getProp thrown (js "message")); reflexivity. Qed.

Lemma quiet_no_mutate tr key c :
  quiet tr = true -> ~ In (EMutate key c) tr.
Proof.
  unfold quiet. rewrite forallb_forall. intros H Hin.
  specialize (H _ Hin). discriminate H.
Qed.

Lemma quiet_no_failure tr e :
  quiet tr = true -> In e tr -> failedCall e = false.
Proof.
  unfold quiet. rewrite forallb_forall. intros H Hin.
  specialize (H _ Hin). destruct e; try reflexivity; discriminate H.
Qed.

Lemma quiet_no_cache tr :
  quiet tr = true -> forallb (fun e => negb (reachesCache e)) tr = true.
Proof.
  unfold quiet. rewrite !forallb_forall. intros H e Hin.
  specialize (H _ Hin). destruct e; try reflexivity; discriminate H.
Qed.

Lemma quiet_noMutate tr : quiet tr = true -> noMutate tr = true.
Proof.
  unfold quiet, noMutate. rewrite !forallb_forall. intros H e Hin.
  specialize (H _ Hin). destruct e; try reflexivity; discriminate H.
Qed.

Lemma noMutate_not_in tr key c :
  noMutate tr = true -> ~ In (EMutate key c) tr.
Proof.
  unfold noMutate. rewrite forallb_forall. intros H Hin.
  specialize (H _ Hin). discriminate H.
Qed.

(** The first invalidation of a trace is where any split at an
    invalidation falls, when no other follows it. *)
Lemma first_mutate (pre0 tail pre post : list Entry) key0 c0 key c :
  noMutate pre0 = true -> noMutate tail = true ->
  pre0 ++ EMutate key0 c0 :: tail = pre ++ EMutate key c :: post ->
  pre = pre0 /\ key = key0 /\ c = c0 /\ post = tail.
Proof.
  intros Hpre Htail. revert pre.
  induction pre0 as [|a pre0 IH]; intros pre H.
  - destruct pre as [|e pre]; simpl in H.
    + injection H as -> -> ->. auto.
    + injection H as <- H. exfalso.
      apply (noMutate_not_in tail key c Htail). rewrite H.
      apply in_elt.
  - simpl in Hpre. apply andb_true_iff in Hpre as [Ha Hpre].
    destruct pre as [|e pre]; simpl in H.
    + injection H as -> _. discriminate Ha.
    + injection H as <- H. destruct (IH Hpre pre H) as (-> & -> & -> & ->).
      auto.
Qed.

(** ** Invalidation comes after the success response *)

Lemma after_write_ordering fallback last answer rest o pre0 req :
  AfterWrite fallback last answer rest o ->
  quiet pre0 = true -> quiet last = true -> isWrite req = true ->
  invalidationFollowsSuccess (pre0 ++ EFetch req answer :: rest)
  /\ noInvalidationOnFailure (pre0 ++ EFetch req answer :: rest).
Proof.
  intros HA Hpre Hlast Hreq.
  assert (Hsilent : forall thrown answer',
    quiet (fst (caught thrown)) = true ->
    forall key c, ~ In (EMutate key c)
      (pre0 ++ EFetch req answer' :: fst (caught thrown))).
  { intros thrown answer' Hq key c Hin. apply in_app_or in Hin as [Hin|Hin].
    - exact (quiet_no_mutate _ _ _ Hpre Hin).
    - destruct Hin as [Hin|Hin]; [discriminate Hin|].
      exact (quiet_no_mutate _ _ _ Hq Hin). }
  assert (Hsound : forall res tail key0 c0,
    ok res = true -> quiet tail = true ->
    invalidationFollowsSuccess
      (pre0 ++ EFetch req (Responded res) :: EMutate key0 c0 :: tail)
    /\ noInvalidationOnFailure
      (pre0 ++ EFetch req (Responded res) :: EMutate key0 c0 :: tail)).
  { intros res tail key0 c0 Hok Htail. split.
    - intros pre key c post Hsplit.
      change (pre0 ++ EFetch req (Responded res) :: EMutate key0 c0 :: tail)
        with (pre0 ++ [EFetch req (Responded res)] ++ EMutate key0 c0 :: tail)
        in Hsplit.
      rewrite app_assoc in Hsplit.
      apply first_mutate in Hsplit as (-> & _ & _ & _).
      + exists pre0, req, res. auto.
      + unfold noMutate. rewrite forallb_app.
        fold (noMutate pre0). rewrite (quiet_noMutate _ Hpre). reflexivity.
      + apply quiet_noMutate, Htail.
    - intros e Hin Hfail key c _.
      apply in_app_or in Hin as [Hin|Hin].
      + rewrite (quiet_no_failure _ _ Hpre Hin) in Hfail. discriminate Hfail.
      + destruct Hin as [<-|[<-|Hin]].
        * simpl in Hfail. rewrite Hok in Hfail. discriminate Hfail.
        * discriminate Hfail.
        * rewrite (quiet_no_failure _ _ Htail Hin) in Hfail. discriminate Hfail. }
  destruct HA as [reason|res Hok|res thrown Hok|res v Hok].
  - split.
    + intros pre key c post Hsplit. exfalso.
      apply (Hsilent reason (Rejected reason) (caught_quiet reason) key c).
      rewrite Hsplit. apply in_elt.
    + intros e _ _ key c. apply Hsilent, caught_quiet.
  - split.
    + intros pre key c post Hsplit. exfalso.
      apply (Hsilent _ (Responded res) (caught_quiet (refusal fallback res)) key c).
      rewrite Hsplit. apply in_elt.
    + intros e _ _ key c. apply Hsilent, caught_quiet.
  - apply Hsound; [exact Hok|apply caught_quiet].
  - apply Hsound; [exact Hok|exact Hlast].
Qed.

Lemma handleCreate_ordering fn ln bn em tr o :
  Path (handleCreate fn ln bn em) tr o ->
  invalidationFollowsSuccess tr /\ noInvalidationOnFailure tr.
Proof.
  intros H. apply handleCreate_paths in H.
  destruct (blank fn ln em).
  - destruct H as [-> _]. split.
    + intros pre key c post Hsplit. exfalso.
      apply (quiet_no_mutate [EPreventDefault; validationAlert] key c eq_refl).
      rewrite Hsplit. apply in_elt.
    + intros e _ _ key c. apply quiet_no_mutate. reflexivity.
  - destruct H as (answer & rest & -> & HA).
    apply (after_write_ordering _ _ _ _ _ [EPreventDefault] _ HA);
      reflexivity.
Qed.

Lemma handleDelete_ordering custEmail tr o :
  Path (handleDelete custEmail) tr o ->
  invalidationFollowsSuccess tr /\ noInvalidationOnFailure tr.
Proof.
  intros H. apply handleDelete_paths in H.
  destruct H as (confirmed & rest & -> & H).
  assert (Hquiet : forall tail, quiet tail = true ->
    invalidationFollowsSuccess
      (EConfirm (confirmPrompt custEmail) confirmed :: tail)
    /\ noInvalidationOnFailure
      (EConfirm (confirmPrompt custEmail) confirmed :: tail)).
  { intros tail Hq.
    assert (Hq' : quiet (EConfirm (confirmPrompt custEmail) confirmed :: tail)
                  = true) by exact Hq.
    split.
    - intros pre key c post Hsplit. exfalso.
      apply (quiet_no_mutate _ key c Hq'). rewrite Hsplit. apply in_elt.
    - intros e _ _ key c. apply quiet_no_mutate, Hq'. }
  destruct confirmed.
  - destruct (encodeURIComponent custEmail) as [encoded|thrown].
    + destruct H as (answer & rest' & -> & HA).
      apply (after_write_ordering _ _ _ _ _
               [EConfirm (confirmPrompt custEmail) true] _ HA); reflexivity.
    + destruct H as [-> _]. apply Hquiet, caught_quiet.
  - destruct H as [-> _]. apply Hquiet. reflexivity.
Qed.

(** C1.  In every run of [handleCreate] and of [handleDelete], whatever the
    surroundings answer, each call of [mutate] comes directly after the
    success response to the handler's remote write, with nothing sent to
    the store or the cache before that write; and a run in which the remote
    call failed (rejected by the transport, or answered outside 2xx) holds
    no call of [mutate] at all. *)
Theorem invalidate_only_after_success :
  forall (W : Type) (env : Env W) (w : W)
         (firstName lastName businessName email custEmail : jsstring),
    let created :=
      trace (run env (handleCreate firstName lastName businessName email) w) in
    let removed := trace (run env (handleDelete custEmail) w) in
    (invalidationFollowsSuccess created /\ noInvalidationOnFailure created)
    /\ (invalidationFollowsSuccess removed /\ noInvalidationOnFailure removed).
Proof.
  intros W env w fn ln bn em custEmail created removed. split.
  - exact (handleCreate_ordering _ _ _ _ _ _ (run_path env _ w)).
  - exact (handleDelete_ordering _ _ _ (run_path env _ w)).
Qed.

(** ** Frames *)

Lemma run_frame {W V A : Type} (env : Env W) (view : W -> V)
      (reaches : Entry -> bool) :
  Frames env view reaches ->
  forall (p : Prog A) (w : W),
    forallb (fun e => negb (reaches e)) (trace (run env p w)) = true ->
    view (final (run env p w)) = view w.
Proof.
  intros HF p. induction p as [a|t|X e k IH]; intros w H; simpl in *.
  - reflexivity.
  - reflexivity.
  - pose proof (HF X e w) as Hstep.
    destruct (env X e w) as [x w1]. simpl in *.
    apply andb_true_iff in H as [Hx H].
    rewrite (IH x w1 H). apply Hstep.
    destruct (reaches (entry e x)); [discriminate Hx|reflexivity].
Qed.

Lemma failed_after_write_quiet fallback last answer rest o pre0 req :
  AfterWrite fallback last answer rest o ->
  quiet pre0 = true -> quiet last = true ->
  existsb failedCall (pre0 ++ EFetch req answer :: rest) = true ->
  forallb (fun e => negb (reachesCache e))
          (pre0 ++ EFetch req answer :: rest) = true.
Proof.
  intros HA Hpre Hlast Hfail.
  assert (Hcache : forall tail, quiet tail = true ->
    forallb (fun e => negb (reachesCache e))
            (pre0 ++ EFetch req answer :: tail) = true).
  { intros tail Hq. rewrite forallb_app. simpl.
    rewrite (quiet_no_cache _ Hpre), (quiet_no_cache _ Hq). reflexivity. }
  assert (Hnone : forall res tail key c,
    answer = Responded res -> ok res = true -> quiet tail = true ->
    existsb failedCall (pre0 ++ EFetch req answer :: EMutate key c :: tail)
    = false).
  { intros res tail key c -> Hok Hq.
    apply not_true_is_false. intros Hex.
    apply existsb_exists in Hex as (e & Hin & He).
    apply in_app_or in Hin as [Hin|[<-|[<-|Hin]]].
    - rewrite (quiet_no_failure _ _ Hpre Hin) in He. discriminate He.
    - simpl in He. rewrite Hok in He. discriminate He.
    - discriminate He.
    - rewrite (quiet_no_failure _ _ Hq Hin) in He. discriminate He. }
  destruct HA as [reason|res Hok|res thrown Hok|res v Hok].
  - apply Hcache, caught_quiet.
  - apply Hcache, caught_quiet.
  - rewrite (Hnone res _ _ _ eq_refl Hok (caught_quiet thrown)) in Hfail.
    discriminate Hfail.
  - rewrite (Hnone res _ _ _ eq_refl Hok Hlast) in Hfail. discriminate Hfail.
Qed.

(** C3.  For surroundings whose cache changes only through [mutate] and
    [useSWR]: after a [handleCreate] that failed, by the validation (a
    required field blank once trimmed) or by its remote call (rejected, or
    answered outside 2xx), and after a [handleDelete] that failed, by its
    remote call or by an email that cannot be encoded, the cache is what it
    was before the call. *)
Theorem failed_mutation_leaves_cache :
  forall (W V : Type) (env : Env W) (view : W -> V),
    Frames env view reachesCache ->
    forall (w : W) (firstName lastName businessName email custEmail : jsstring),
      let created := run env (handleCreate firstName lastName businessName email) w in
      let removed := run env (handleDelete custEmail) w in
      (blank firstName lastName email = true
       \/ existsb failedCall (trace created) = true ->
       view (final created) = view w)
      /\ (encodeOpt custEmail = None
          \/ existsb failedCall (trace removed) = true ->
          view (final removed) = view w).
Proof.
  intros W V env view HF w fn ln bn em custEmail created removed. split.
  - intros Hfail. apply (run_frame env view reachesCache HF).
    pose proof (run_path env (handleCreate fn ln bn em) w) as HP.
    apply handleCreate_paths in HP. fold created in HP |- *.
    destruct (blank fn ln em).
    + destruct HP as [-> _]. reflexivity.
    + destruct HP as (answer & rest & Htr & HA). rewrite Htr in *.
      destruct Hfail as [Hb|Hfail]; [discriminate Hb|].
      apply (failed_after_write_quiet _ _ _ _ _ [EPreventDefault] _ HA);
        auto.
  - intros Hfail. apply (run_frame env view reachesCache HF).
    pose proof (run_path env (handleDelete custEmail) w) as HP.
    apply handleDelete_paths in HP. fold removed in HP |- *.
    destruct HP as (confirmed & rest & Htr & HP). rewrite Htr in *.
    destruct confirmed.
    + unfold encodeURIComponent in HP.
      destruct (encodeOpt custEmail) as [encoded|].
      * destruct HP as (answer & rest' & -> & HA).
        destruct Hfail as [Hb|Hfail]; [discriminate Hb|].
        apply (failed_after_write_quiet _ _ _ _ _
                 [EConfirm (confirmPrompt custEmail) true] _ HA); auto.
      * destruct HP as [-> _].
        apply (quiet_no_cache (EConfirm _ true :: fst (caught _))).
        apply (caught_quiet (VError (js "URIError") (js "URI malformed"))).
    + destruct HP as [-> _]. reflexivity.
Qed.

(** The simulated surroundings change the cache only through [mutate] and
    [useSWR], and the store only through those and [fetch]. *)
Lemma simEnv_frames_cache : Frames simEnv cache reachesCache.
Proof.
  intros X e w. destruct e; simpl; try reflexivity; try discriminate.
  intros _. destruct (network req (remote w)). reflexivity.
Qed.

Lemma simEnv_frames_store :
  Frames simEnv (fun w => (remote w, cache w)) reachesStore.
Proof.
  intros X e w. destruct e; simpl; try reflexivity; discriminate.
Qed.

Lemma failed_mutation_leaves_cache_witness :
  cache (final (run simEnv
                  (handleCreate (js "C") (js "D") [] (js "c@x.com")) worldTaken))
  = cache worldTaken
  /\ cache (final (run simEnv (handleDelete (js "zz@x.com")) world0))
     = cache world0.
Proof.
  pose proof (failed_mutation_leaves_cache World _ simEnv cache
                simEnv_frames_cache) as H.
  split.
  - apply (H worldTaken (js "C") (js "D") [] (js "c@x.com") []).
    right. vm_compute. reflexivity.
  - apply (H world0 [] [] [] [] (js "zz@x.com")).
    right. vm_compute. reflexivity.
Defined.

(** ** The confirmation prompt *)

(** C9.  When the answer to the prompt of [handleDelete] is no, the call
    does nothing else: its trace is the prompt alone, so no request is sent
    and [mutate] is not called, it returns, and whatever the surroundings
    keep through effects that reach neither store nor cache (the store and
    the cache themselves) is what it was before the call. *)
Theorem declined_delete_changes_nothing :
  forall (W V : Type) (env : Env W) (view : W -> V),
    Frames env view reachesStore ->
    forall (w : W) (custEmail : jsstring),
      fst (env bool (Confirm (confirmPrompt custEmail)) w) = false ->
      let r := run env (handleDelete custEmail) w in
      trace r = [EConfirm (confirmPrompt custEmail) false]
      /\ outcome r = Returned tt
      /\ view (final r) = view w.
Proof.
  intros W V env view HF w custEmail Hno r.
  assert (Htr : trace r = [EConfirm (confirmPrompt custEmail) false]
                /\ outcome r = Returned tt).
  { subst r. unfold handleDelete. cbn.
    fold (confirmPrompt custEmail).
    destruct (env bool (Confirm (confirmPrompt custEmail)) w) as [answer w1].
    simpl in Hno. subst answer. cbn. auto. }
  destruct Htr as [Htr Ho]. repeat split; try assumption.
  apply (run_frame env view reachesStore HF). fold r. rewrite Htr. reflexivity.
Qed.

Lemma declined_delete_changes_nothing_witness :
  trace (run simEnv (handleDelete (js "a@x.com")) worldDeclining)
  = [EConfirm (confirmPrompt (js "a@x.com")) false]
  /\ outcome (run simEnv (handleDelete (js "a@x.com")) worldDeclining)
     = Returned tt
  /\ (remote (final (run simEnv (handleDelete (js "a@x.com")) worldDeclining)),
      cache (final (run simEnv (handleDelete (js "a@x.com")) worldDeclining)))
     = (remote worldDeclining, cache worldDeclining).
Proof.
  apply (declined_delete_changes_nothing World _ simEnv
           (fun w => (remote w, cache w)) simEnv_frames_store
           worldDeclining (js "a@x.com")).
  reflexivity.
Defined.

(** ** The validation of the form *)

Lemma blank_whitespace fn ln em :
  blank fn ln em
  = forallb isWhiteSpace fn || forallb isWhiteSpace ln
    || forallb isWhiteSpace em.
Proof.
  rewrite <- blank_spec, !blank_iff. reflexivity.
Qed.

Lemma handleCreate_blank {W : Type} (env : Env W) (w : W) fn ln bn em :
  blank fn ln em = true ->
  trace (run env (handleCreate fn ln bn em) w)
  = [EPreventDefault; validationAlert]
  /\ outcome (run env (handleCreate fn ln bn em) w) = Returned tt.
Proof.
  intros Hb. pose proof (run_path env (handleCreate fn ln bn em) w) as HP.
  apply handleCreate_paths in HP. rewrite Hb in HP. exact HP.
Qed.

Lemma handleCreate_filled {W : Type} (env : Env W) (w : W) fn ln bn em :
  blank fn ln em = false ->
  exists answer rest,
    trace (run env (handleCreate fn ln bn em) w)
    = EPreventDefault :: EFetch (createRequest fn ln bn em) answer :: rest.
Proof.
  intros Hb. pose proof (run_path env (handleCreate fn ln bn em) w) as HP.
  apply handleCreate_paths in HP. rewrite Hb in HP.
  destruct HP as (answer & rest & Htr & _). eauto.
Qed.

(** C10.  When [firstName], [lastName] or [email] consists of white space
    only (the empty string included), [handleCreate] shows the validation
    alert and returns: its trace is [preventDefault] and the alert, so no
    request is sent to the store. *)
Theorem whitespace_only_field_is_rejected :
  forall (W : Type) (env : Env W) (w : W)
         (firstName lastName businessName email : jsstring),
    forallb isWhiteSpace firstName = true
    \/ forallb isWhiteSpace lastName = true
    \/ forallb isWhiteSpace email = true ->
    let r := run env (handleCreate firstName lastName businessName email) w in
    trace r = [EPreventDefault; validationAlert]
    /\ outcome r = Returned tt
    /\ existsb reachesStore (trace r) = false.
Proof.
  intros W env w fn ln bn em Hws r.
  assert (Hb : blank fn ln em = true).
  { rewrite blank_whitespace.
    destruct Hws as [H|[H|H]]; rewrite H;
      rewrite ?orb_true_r; reflexivity. }
  destruct (handleCreate_blank env w fn ln bn em Hb) as [Htr Ho].
  subst r. rewrite Htr. auto.
Qed.

Lemma whitespace_only_field_is_rejected_witness :
  trace (run simEnv (handleCreate (js "C") [0x20; 0x09; 0xA0] [] (js "c@x.com"))
           world0)
  = [EPreventDefault; validationAlert]
  /\ outcome (run simEnv
                (handleCreate (js "C") [0x20; 0x09; 0xA0] [] (js "c@x.com"))
                world0) = Returned tt
  /\ existsb reachesStore
       (trace (run simEnv
                 (handleCreate (js "C") [0x20; 0x09; 0xA0] [] (js "c@x.com"))
                 world0)) = false.
Proof.
  apply (whitespace_only_field_is_rejected World simEnv world0
           (js "C") [0x20; 0x09; 0xA0] [] (js "c@x.com")).
  right. left. reflexivity.
Defined.

(** C4, as the code has it.  [handleCreate] rejects the form exactly when
    [firstName], [lastName] or [email] holds nothing but white space (an
    empty field included): then it shows the validation alert and sends
    nothing; otherwise it raises no validation alert and sends the POST to
    the store.  [businessName] takes no part in the test. *)
Theorem create_validation :
  forall (W : Type) (env : Env W) (w : W)
         (firstName lastName businessName email : jsstring),
    let r := run env (handleCreate firstName lastName businessName email) w in
    if forallb isWhiteSpace firstName || forallb isWhiteSpace lastName
       || forallb isWhiteSpace email
    then trace r = [EPreventDefault; validationAlert] /\ outcome r = Returned tt
    else exists answer rest,
           trace r = EPreventDefault
                     :: EFetch (createRequest firstName lastName businessName email)
                               answer
                     :: rest.
Proof.
  intros W env w fn ln bn em r. rewrite <- blank_whitespace.
  destruct (blank fn ln em) eqn:Hb.
  - exact (handleCreate_blank env w fn ln bn em Hb).
  - exact (handleCreate_filled env w fn ln bn em Hb).
Qed.

(** C4 as stated fails: with all three required fields non-empty (the first
    name a single space) the validation alert is raised and the store is
    not contacted. *)
Lemma create_nonempty_fields_rejected :
  isEmpty (js " ") = false /\ isEmpty (js "D") = false
  /\ isEmpty (js "c@x.com") = false
  /\ trace (run simEnv (handleCreate (js " ") (js "D") [] (js "c@x.com")) world0)
     = [EPreventDefault; validationAlert]
  /\ requests (remote (final (run simEnv
       (handleCreate (js " ") (js "D") [] (js "c@x.com")) world0))) = [].
Proof. repeat split. Qed.

(** ** What is surfaced of a failure *)

Lemma after_write_answer fallback last answer rest o pre0 req req' res :
  AfterWrite fallback last answer rest o ->
  quiet pre0 = true -> quiet last = true ->
  In (EFetch req' (Responded res)) (pre0 ++ EFetch req answer :: rest) ->
  answer = Responded res.
Proof.
  intros HA Hpre Hlast Hin.
  assert (Hq : forall tr, quiet tr = true -> ~ In (EFetch req' (Responded res)) tr).
  { intros tr Htr Hi. unfold quiet in Htr. rewrite forallb_forall in Htr.
    specialize (Htr _ Hi). discriminate Htr. }
  apply in_app_or in Hin as [Hin|[Hin|Hin]].
  - destruct (Hq _ Hpre Hin).
  - injection Hin as _ ->. reflexivity.
  - exfalso. destruct HA as [reason|r Hok|r thrown Hok|r v Hok].
    + exact (Hq _ (caught_quiet _) Hin).
    + exact (Hq _ (caught_quiet _) Hin).
    + destruct Hin as [Hin|Hin]; [discriminate Hin|].
      exact (Hq _ (caught_quiet _) Hin).
    + destruct Hin as [Hin|Hin]; [discriminate Hin|].
      exact (Hq _ Hlast Hin).
Qed.

Lemma refusal_api_error fallback res err :
  json res = Normal (apiErrorToJs err) ->
  caught (refusal fallback res)
  = ([EConsoleError (VError (js "Error") (shown fallback err));
      EAlert (VStr (shown fallback err))], Returned tt).
Proof.
  intros Hj. unfold refusal, shown. rewrite Hj.
  change (optGet (apiErrorToJs err) (js "message")) with (VStr (message err)).
  destruct (message err); reflexivity.
Qed.

Lemma after_write_refused fallback last res rest o err pre0 req :
  AfterWrite fallback last (Responded res) rest o ->
  ok res = false -> json res = Normal (apiErrorToJs err) ->
  quiet pre0 = true ->
  reports (pre0 ++ EFetch req (Responded res) :: rest)
  = reports pre0
    ++ [EConsoleError (VError (js "Error") (shown fallback err));
        EAlert (VStr (shown fallback err))]
  /\ o = Returned tt.
Proof.
  intros HA Hok Hj Hpre. unfold reports. rewrite filter_app. simpl.
  inversion HA as [|r Hok' Ha Hr Ho|r thrown Hok'|r v Hok']; subst;
    try congruence.
  rewrite (refusal_api_error fallback res err Hj). simpl. auto.
Qed.

Lemma fetcher_paths url tr o :
  Path (fetcher url) tr o ->
  exists answer,
    tr = [EFetch {| url := url; method := js "GET"; headers := [];
                    body := None |} answer]
    /\ o = match answer with
           | Rejected reason => Threw reason
           | Responded res =>
               match json res with
               | Normal v => if ok res then Returned v else Threw v
               | Abrupt thrown => Threw thrown
               end
           end.
Proof.
  intros H. unfold fetcher, awaitFetch, eval in H. cbn in H.
  destruct H as (answer & rest & -> & H). exists answer.
  destruct answer as [reason|res]; cbn in H.
  - destruct H as [-> ->]. auto.
  - destruct (json res) as [v|thrown]; cbn in H.
    + destruct (ok res); cbn in H; destruct H as [-> ->]; auto.
    + destruct H as [-> ->]. auto.
Qed.

Lemma handleCreate_refused fn ln bn em tr o req res err :
  Path (handleCreate fn ln bn em) tr o ->
  ok res = false -> json res = Normal (apiErrorToJs err) ->
  In (EFetch req (Responded res)) tr ->
  reports tr
  = [EConsoleError
       (VError (js "Error") (shown (js "Error adding new customer") err));
     EAlert (VStr (shown (js "Error adding new customer") err))]
  /\ o = Returned tt.
Proof.
  intros HP Hok Hj Hin. apply handleCreate_paths in HP.
  destruct (blank fn ln em).
  - destruct HP as [-> _]. destruct Hin as [Hin|[Hin|[]]]; discriminate Hin.
  - destruct HP as (answer & rest & -> & HA).
    pose proof (after_write_answer _ _ _ _ _ [EPreventDefault] _ _ _ HA
                  eq_refl eq_refl Hin) as ->.
    apply (after_write_refused _ _ _ _ _ err [EPreventDefault] _ HA Hok Hj).
    reflexivity.
Qed.

Lemma handleDelete_refused custEmail tr o req res err :
  Path (handleDelete custEmail) tr o ->
  ok res = false -> json res = Normal (apiErrorToJs err) ->
  In (EFetch req (Responded res)) tr ->
  reports tr
  = [EConsoleError
       (VError (js "Error") (shown (js "Error deleting customer") err));
     EAlert (VStr (shown (js "Error deleting customer") err))]
  /\ o = Returned tt.
Proof.
  intros HP Hok Hj Hin. apply handleDelete_paths in HP.
  destruct HP as (confirmed & rest & -> & HP).
  destruct confirmed.
  - destruct (encodeURIComponent custEmail) as [encoded|thrown].
    + destruct HP as (answer & rest' & -> & HA).
      pose proof (after_write_answer _ _ _ _ _
                    [EConfirm (confirmPrompt custEmail) true] _ _ _ HA
                    eq_refl eq_refl Hin) as ->.
      apply (after_write_refused _ _ _ _ _ err
               [EConfirm (confirmPrompt custEmail) true] _ HA Hok Hj).
      reflexivity.
    + destruct HP as [-> _]. exfalso.
      destruct Hin as [Hin|Hin]; [discriminate Hin|].
      pose proof (caught_quiet thrown) as Hq.
      unfold quiet in Hq. rewrite forallb_forall in Hq.
      specialize (Hq _ Hin). discriminate Hq.
  - destruct HP as [-> _]. destruct Hin as [Hin|[]]. discriminate Hin.
Qed.

(** C7, as the code has it.  When the store answers outside 2xx with the
    error body [{code, message}]: the [fetcher] of the list throws that
    body as it is; [handleCreate] and [handleDelete] return after
    surfacing the message alone, as the text of an [Error] logged to the
    console and shown by [alert], or their fixed fallback text when the
    message is empty.  The code is not surfaced by the handlers. *)
Theorem store_error_surfacing :
  forall (W : Type) (env : Env W) (w : W)
         (firstName lastName businessName email custEmail url : jsstring)
         (res : Response) (err : ApiError) (req : Request),
    let listed := run env (fetcher url) w in
    let created := run env (handleCreate firstName lastName businessName email) w in
    let removed := run env (handleDelete custEmail) w in
    ok res = false ->
    json res = Normal (apiErrorToJs err) ->
    (In (EFetch req (Responded res)) (trace listed) ->
     outcome listed = Threw (apiErrorToJs err))
    /\ (In (EFetch req (Responded res)) (trace created) ->
        reports (trace created)
        = [EConsoleError
             (VError (js "Error") (shown (js "Error adding new customer") err));
           EAlert (VStr (shown (js "Error adding new customer") err))]
        /\ outcome created = Returned tt)
    /\ (In (EFetch req (Responded res)) (trace removed) ->
        reports (trace removed)
        = [EConsoleError
             (VError (js "Error") (shown (js "Error deleting customer") err));
           EAlert (VStr (shown (js "Error deleting customer") err))]
        /\ outcome removed = Returned tt).
Proof.
  intros W env w fn ln bn em custEmail u res err req listed created removed
         Hok Hj.
  split; [|split]; intros Hin.
  - pose proof (run_path env (fetcher u) w) as HP.
    apply fetcher_paths in HP. fold listed in HP.
    destruct HP as (answer & Htr & Ho). rewrite Htr in Hin. rewrite Ho.
    destruct Hin as [Hin|[]].
    injection Hin as _ ->. rewrite Hj, Hok. reflexivity.
  - exact (handleCreate_refused _ _ _ _ _ _ _ _ _ (run_path env _ w) Hok Hj Hin).
  - exact (handleDelete_refused _ _ _ _ _ _ (run_path env _ w) Hok Hj Hin).
Qed.

Lemma store_error_surfacing_witness :
  outcome (run (answering (rejecting "Conflict" "Customer already exists"))
             (fetcher customersKey) tt)
  = Threw (apiErrorToJs {| code := js "Conflict";
                           message := js "Customer already exists" |})
  /\ (reports (trace (run (answering (rejecting "Conflict" "Customer already exists"))
                        (handleCreate (js "C") (js "D") [] (js "c@x.com")) tt))
      = [EConsoleError (VError (js "Error") (js "Customer already exists"));
         EAlert (VStr (js "Customer already exists"))]
      /\ outcome (run (answering (rejecting "Conflict" "Customer already exists"))
                    (handleCreate (js "C") (js "D") [] (js "c@x.com")) tt)
         = Returned tt)
  /\ (reports (trace (run (answering (rejecting "NotFound" ""))
                        (handleDelete (js "a@x.com")) tt))
      = [EConsoleError (VError (js "Error") (js "Error deleting customer"));
         EAlert (VStr (js "Error deleting customer"))]
      /\ outcome (run (answering (rejecting "NotFound" ""))
                    (handleDelete (js "a@x.com")) tt)
         = Returned tt).
Proof.
  split; [|split].
  - destruct (store_error_surfacing unit
             (answering (rejecting "Conflict" "Customer already exists")) tt
             [] [] [] [] [] customersKey
             {| ok := false;
                json := Normal (apiErrorToJs
                                  {| code := js "Conflict";
                                     message := js "Customer already exists" |}) |}
             {| code := js "Conflict"; message := js "Customer already exists" |}
             {| url := customersKey; method := js "GET"; headers := [];
                body := None |}
             eq_refl eq_refl) as (H & _ & _).
    apply H.
    left. reflexivity.
  - destruct (store_error_surfacing unit
             (answering (rejecting "Conflict" "Customer already exists")) tt
             (js "C") (js "D") [] (js "c@x.com") [] []
             {| ok := false;
                json := Normal (apiErrorToJs
                                  {| code := js "Conflict";
                                     message := js "Customer already exists" |}) |}
             {| code := js "Conflict"; message := js "Customer already exists" |}
             (createRequest (js "C") (js "D") [] (js "c@x.com"))
             eq_refl eq_refl) as (_ & H & _).
    apply H.
    right. left. reflexivity.
  - destruct (store_error_surfacing unit
             (answering (rejecting "NotFound" "")) tt
             [] [] [] [] (js "a@x.com") []
             {| ok := false;
                json := Normal (apiErrorToJs
                                  {| code := js "NotFound"; message := [] |}) |}
             {| code := js "NotFound"; message := [] |}
             (deleteRequest (js "a%40x.com"))
             eq_refl eq_refl) as (_ & _ & H).
    apply H.
    right. left. reflexivity.
Defined.

(** C7 as stated fails for the handlers: two rejections of a create by the
    store that differ in their code alone surface the same report, so the
    code does not reach the caller. *)
Lemma create_error_code_not_surfaced :
  rejecting "Conflict" "Customer already exists"
  <> rejecting "Duplicate" "Customer already exists"
  /\ reports (trace (run (answering (rejecting "Conflict" "Customer already exists"))
                       (handleCreate (js "C") (js "D") [] (js "c@x.com")) tt))
     = reports (trace (run (answering (rejecting "Duplicate" "Customer already exists"))
                         (handleCreate (js "C") (js "D") [] (js "c@x.com")) tt))
  /\ reports (trace (run (answering (rejecting "Conflict" "Customer already exists"))
                       (handleCreate (js "C") (js "D") [] (js "c@x.com")) tt))
     = [EConsoleError (VError (js "Error") (js "Customer already exists"));
        EAlert (VStr (js "Customer already exists"))]
  /\ outcome (run (answering (rejecting "Conflict" "Customer already exists"))
                (handleCreate (js "C") (js "D") [] (js "c@x.com")) tt)
     = outcome (run (answering (rejecting "Duplicate" "Customer already exists"))
                  (handleCreate (js "C") (js "D") [] (js "c@x.com")) tt).
Proof.
  split; [discriminate|]. repeat split.
Qed.

(** ** Facts about the resource cache *)

Module RC := ResourceCache.

Lemma jsstring_eqb_refl (s : jsstring) : jsstring_eqb s s = true.
Proof.
  unfold jsstring_eqb. destruct (list_eq_dec N.eq_dec s s); congruence.
Qed.

Lemma jsstring_eqb_eq (a b : jsstring) : jsstring_eqb a b = true -> a = b.
Proof.
  unfold jsstring_eqb. destruct (list_eq_dec N.eq_dec a b); congruence.
Qed.

Lemma find_put key e es : RC.find key (RC.put key e es) = Some e.
Proof.
  induction es as [|[k e'] es IH]; simpl.
  - rewrite jsstring_eqb_refl. reflexivity.
  - destruct (jsstring_eqb k key) eqn:E; simpl; rewrite E; auto.
Qed.

Lemma arrived_fresh id c t :
  Forall (fun ic => (fst ic < id)%nat) t ->
  RC.arrived id (t ++ [(id, c)]) = Some c.
Proof.
  induction 1 as [|[i c'] t Hi Ht IH]; simpl.
  - rewrite Nat.eqb_refl. reflexivity.
  - simpl in Hi. destruct (Nat.eqb_spec i id); [lia|exact IH].
Qed.

Lemma landed_below id n t :
  Forall (fun ic => (fst ic < n)%nat) t ->
  Forall (fun ic => (fst ic < n)%nat) (RC.landed id t).
Proof.
  intros H. unfold RC.landed. rewrite Forall_forall in *.
  intros ic Hin. apply filter_In in Hin as [Hin _]. auto.
Qed.

Lemma arrived_below id n t c :
  Forall (fun ic => (fst ic < n)%nat) t ->
  RC.arrived id t = Some c -> (id < n)%nat.
Proof.
  induction 1 as [|[i c'] t Hi Ht IH]; simpl; [discriminate|].
  destruct (Nat.eqb_spec i id); [subst; auto|exact IH].
Qed.

Section CacheFacts.

Variable R : Type.
Variable remoteRead : jsstring -> R -> Completion jsval * R.
Variable key : jsstring.

Local Abbreviation start := (RC.start R remoteRead key).
Local Abbreviation entryOf := (RC.entryOf R key).
Local Abbreviation settle := (RC.settle R remoteRead key).
Local Abbreviation invalidate := (RC.invalidate R remoteRead key).

Local Abbreviation attached := (RC.attached R key).

Lemma entryOf_found st e :
  RC.find key (RC.entries (snd st)) = Some e -> entryOf st = e.
Proof. unfold RC.entryOf. intros ->. reflexivity. Qed.

Lemma start_spec e st :
  let st' := start e st in
  fst st' = snd (remoteRead key (fst st))
  /\ entryOf st'
     = {| RC.value := RC.value e; RC.status := RC.loading;
          RC.error := RC.error e;
          RC.inflightRequest := Some (RC.nextRequest (snd st));
          RC.stale := false |}
  /\ RC.transit (snd st')
     = RC.transit (snd st)
       ++ [(RC.nextRequest (snd st), fst (remoteRead key (fst st)))]
  /\ RC.nextRequest (snd st') = S (RC.nextRequest (snd st)).
Proof.
  unfold RC.start. destruct (remoteRead key (fst st)) as [c r'].
  simpl. repeat split.
  unfold RC.entryOf. simpl. rewrite find_put. reflexivity.
Qed.

Lemma start_attached e st :
  attached (start e st) (RC.nextRequest (snd st)).
Proof.
  destruct (start_spec e st) as (_ & He & _).
  unfold RC.entryOf in He.
  destruct (RC.find key (RC.entries (snd (start e st)))) as [e'|] eqn:F.
  - exists e'. subst e'. auto.
  - unfold RC.start in F. destruct (remoteRead key (fst st)).
    simpl in F. rewrite find_put in F. discriminate F.
Qed.

Lemma call_attached st id c :
  attached st id -> RC.call R remoteRead key c st = (Some id, st).
Proof.
  intros (e & Hf & Hs & Hi). destruct c; simpl.
  - unfold RC.read. rewrite Hf, Hs. simpl. rewrite Hi. reflexivity.
  - unfold RC.fetch. rewrite (entryOf_found st e Hf), Hs. simpl.
    rewrite Hi. reflexivity.
Qed.

Lemma calls_attached st id cs :
  attached st id ->
  RC.calls R remoteRead key cs st = (repeat (Some id) (length cs), st).
Proof.
  intros Ha. induction cs as [|c cs IH]; simpl; [reflexivity|].
  rewrite (call_attached st id c Ha), IH. reflexivity.
Qed.

Lemma first_call st c :
  RC.find key (RC.entries (snd st)) = None ->
  RC.call R remoteRead key c st
  = (Some (RC.nextRequest (snd st)), start RC.fresh st).
Proof.
  intros Hf.
  assert (He : entryOf st = RC.fresh) by (unfold RC.entryOf; rewrite Hf; reflexivity).
  destruct (start_spec RC.fresh st) as (_ & Hs & _).
  destruct c; simpl.
  - unfold RC.read. rewrite Hf. unfold RC.fetch. rewrite He. simpl.
    rewrite Hs. reflexivity.
  - unfold RC.fetch. rewrite He. simpl. rewrite Hs. reflexivity.
Qed.

(** Single flight: from a cache without an entry for the key, any number
    of reads and fetches make one remote call and wait on one request. *)
Lemma calls_single_flight st c cs :
  RC.find key (RC.entries (snd st)) = None ->
  RC.calls R remoteRead key (c :: cs) st
  = (repeat (Some (RC.nextRequest (snd st))) (S (length cs)),
     start RC.fresh st).
Proof.
  intros Hf. simpl. rewrite (first_call st c Hf).
  rewrite (calls_attached _ _ cs (start_attached RC.fresh st)). reflexivity.
Qed.

(** The settling of a fetch that no invalidation overtook. *)
Lemma settle_start e st :
  Forall (fun ic => (fst ic < RC.nextRequest (snd st))%nat)
         (RC.transit (snd st)) ->
  let st' := settle (start e st) in
  fst st' = snd (remoteRead key (fst st))
  /\ entryOf st'
     = RC.settled
         {| RC.value := RC.value e; RC.status := RC.loading;
            RC.error := RC.error e;
            RC.inflightRequest := Some (RC.nextRequest (snd st));
            RC.stale := false |}
         (fst (remoteRead key (fst st)))
  /\ RC.transit (snd st') = RC.landed (RC.nextRequest (snd st))
                              (RC.transit (snd st)
                               ++ [(RC.nextRequest (snd st),
                                    fst (remoteRead key (fst st)))])
  /\ RC.nextRequest (snd st') = S (RC.nextRequest (snd st)).
Proof.
  intros Hfresh. destruct (start_spec e st) as (Hr & He & Ht & Hn).
  unfold RC.settle. rewrite He. simpl.
  rewrite Ht, (arrived_fresh _ _ _ Hfresh). simpl.
  repeat split; try assumption.
  unfold RC.entryOf. simpl. rewrite find_put. reflexivity.
Qed.

(** An invalidation while a fetch is in flight makes no remote call; the
    fetch in flight then settles into a follow-up fetch, which makes the
    remote call and whose outcome the entry takes when it settles. *)
Lemma invalidate_in_flight st id oc :
  attached st id ->
  RC.arrived id (RC.transit (snd st)) = Some oc ->
  Forall (fun ic => (fst ic < RC.nextRequest (snd st))%nat)
         (RC.transit (snd st)) ->
  let st1 := invalidate st in
  let st2 := settle st1 in
  let st3 := settle st2 in
  fst st1 = fst st
  /\ attached st1 id
  /\ fst st2 = snd (remoteRead key (fst st))
  /\ attached st2 (RC.nextRequest (snd st))
  /\ RC.value (entryOf st2) = RC.value (entryOf st)
  /\ fst st3 = fst st2
  /\ entryOf st3
     = RC.settled (entryOf st2) (fst (remoteRead key (fst st))).
Proof.
  intros (e & Hf & Hs & Hi) Harr Hfresh.
  pose proof (entryOf_found st e Hf) as He.
  assert (H1 : invalidate st
               = (fst st,
                  {| RC.entries :=
                       RC.put key
                         {| RC.value := RC.value e; RC.status := RC.status e;
                            RC.error := RC.error e;
                            RC.inflightRequest := RC.inflightRequest e;
                            RC.stale := true |} (RC.entries (snd st));
                     RC.transit := RC.transit (snd st);
                     RC.nextRequest := RC.nextRequest (snd st) |})).
  { unfold RC.invalidate. rewrite He, Hs. reflexivity. }
  set (e1 := {| RC.value := RC.value e; RC.status := RC.status e;
                RC.error := RC.error e;
                RC.inflightRequest := RC.inflightRequest e;
                RC.stale := true |}) in *.
  set (st1' := (fst st,
                {| RC.entries := RC.put key e1 (RC.entries (snd st));
                   RC.transit := RC.landed id (RC.transit (snd st));
                   RC.nextRequest := RC.nextRequest (snd st) |})).
  assert (H2 : settle (invalidate st) = start e1 st1').
  { rewrite H1. unfold RC.settle, RC.entryOf. simpl. rewrite find_put.
    simpl. rewrite Hi, Harr. reflexivity. }
  assert (Hfresh' : Forall (fun ic => (fst ic < RC.nextRequest (snd st1'))%nat)
                           (RC.transit (snd st1'))).
  { simpl. apply landed_below, Hfresh. }
  cbv zeta. rewrite H2.
  destruct (start_spec e1 st1') as (Hr & Hent & Ht & Hn).
  destruct (settle_start e1 st1' Hfresh') as (Hr3 & Hent3 & _).
  repeat split.
  - rewrite H1. reflexivity.
  - rewrite H1. exists e1. simpl. rewrite find_put. subst e1. simpl. auto.
  - exact Hr.
  - exact (start_attached e1 st1').
  - rewrite Hent, He. reflexivity.
  - rewrite Hr3, Hr. reflexivity.
  - rewrite Hent3, Hent. reflexivity.
Qed.

(** After an invalidation the fetches it caused settle within two steps,
    and the entry holds the outcome of one remote call made on the store
    as it was when the invalidation was issued. *)
Lemma invalidate_quiesce st :
  RC.wellFormed key (snd st) ->
  let st' := RC.quiesce R remoteRead 2 key (invalidate st) in
  fst st' = snd (remoteRead key (fst st))
  /\ exists e, entryOf st' = RC.settled e (fst (remoteRead key (fst st)))
               /\ RC.value e = RC.value (entryOf st).
Proof.
  intros [Hfresh Hwf].
  destruct (RC.isLoadingStatus (RC.status (entryOf st))) eqn:Hl.
  - unfold RC.entryOf in Hl.
    destruct (RC.find key (RC.entries (snd st))) as [e|] eqn:Hf;
      [|discriminate Hl].
    destruct (Hwf Hl) as (id & oc & Hi & Harr).
    assert (Ha : attached st id).
    { exists e. repeat split; auto. destruct (RC.status e); auto; discriminate. }
    destruct (invalidate_in_flight st id oc Ha Harr Hfresh)
      as (_ & (e1 & Hf1 & Hs1 & _) & Hr2 & (e2 & Hf2 & Hs2 & _) & Hv & Hr3 & He3).
    cbv zeta. simpl.
    rewrite (entryOf_found _ _ Hf1), Hs1. simpl.
    rewrite (entryOf_found _ _ Hf2), Hs2. simpl.
    split; [congruence|].
    exists (entryOf (settle (invalidate st))). split; [exact He3|exact Hv].
  - assert (Hi : invalidate st = start (entryOf st) st).
    { unfold RC.invalidate. rewrite Hl. reflexivity. }
    destruct (start_spec (entryOf st) st) as (_ & Hent & _).
    destruct (settle_start (entryOf st) st Hfresh) as (Hr & Hent' & _).
    cbv zeta. simpl. rewrite Hi. rewrite Hent. simpl.
    rewrite Hent'.
    assert (Hdone : RC.isLoadingStatus
              (RC.status
                 (RC.settled
                    {| RC.value := RC.value (entryOf st);
                       RC.status := RC.loading;
                       RC.error := RC.error (entryOf st);
                       RC.inflightRequest := Some (RC.nextRequest (snd st));
                       RC.stale := false |}
                    (fst (remoteRead key (fst st))))) = false).
    { destruct (fst (remoteRead key (fst st))); reflexivity. }
    rewrite Hdone. split; [exact Hr|].
    eexists. split; [exact Hent'|reflexivity].
Qed.

End CacheFacts.

(** ** The cache over the store *)

Lemma remoteRead_requests key r :
  requests (snd (remoteRead key r))
  = requests r ++ [{| url := key; method := js "GET"; headers := [];
                      body := None |}]
  /\ stored (snd (remoteRead key r)) = stored r
  /\ online (snd (remoteRead key r)) = online r.
Proof.
  unfold remoteRead, fetcher, awaitFetch. cbn. unfold network.
  destruct (online r) eqn:Ho.
  - unfold Store.serve. cbn [url method body].
    change (jsstring_eqb (js "GET") (js "GET")) with true.
    change (jsstring_eqb (js "GET") (js "DELETE")) with false.
    cbv iota.
    destruct (jsstring_eqb key (js "/api/customers")).
    + simpl. auto.
    + destruct (Store.stripPrefix (js "/api/customers?email=") key);
        simpl; auto.
  - simpl. auto.
Qed.

Lemma remoteRead_online r :
  online r = true ->
  fst (remoteRead customersKey r) = Normal (customersToJs (stored r)).
Proof.
  intros Ho. unfold remoteRead, fetcher, awaitFetch. cbn. unfold network.
  rewrite Ho. reflexivity.
Qed.

Lemma remoteRead_listCalls r :
  listCalls (snd (remoteRead customersKey r)) = S (listCalls r).
Proof.
  unfold listCalls.
  destruct (remoteRead_requests customersKey r) as (-> & _).
  rewrite filter_app, length_app. simpl. lia.
Qed.

(** C2.  From a cache that holds no entry for the customers key, any
    sequence of one or more [read] and [fetch] calls issued before a fetch
    settles invokes the list operation once, and every call waits on the
    same request; when that request settles (no further call is made) the
    entry holds its outcome, the list the store returned, for all of
    them. *)
Theorem concurrent_reads_share_one_fetch :
  forall (r : Remote) (c : ResourceCache.Cache)
         (first : ResourceCache.Call) (rest : list ResourceCache.Call),
    ResourceCache.find customersKey (ResourceCache.entries c) = None ->
    Forall (fun ic => (fst ic < ResourceCache.nextRequest c)%nat)
           (ResourceCache.transit c) ->
    let called :=
      ResourceCache.calls Remote remoteRead customersKey (first :: rest) (r, c) in
    let st := snd called in
    let settledSt := ResourceCache.settle Remote remoteRead customersKey st in
    listCalls (fst st) = S (listCalls r)
    /\ fst called
       = repeat (Some (ResourceCache.nextRequest c)) (S (length rest))
    /\ ResourceCache.arrived (ResourceCache.nextRequest c)
         (ResourceCache.transit (snd st))
       = Some (fst (remoteRead customersKey r))
    /\ listCalls (fst settledSt) = S (listCalls r)
    /\ ResourceCache.entryOf Remote customersKey settledSt
       = ResourceCache.settled ResourceCache.fresh
           (fst (remoteRead customersKey r))
    /\ (online r = true ->
        ResourceCache.value (ResourceCache.entryOf Remote customersKey settledSt)
        = Some (customersToJs (stored r))).
Proof.
  intros r c first rest Hnone Hfresh called st settledSt.
  assert (Hcalled : called
    = (repeat (Some (RC.nextRequest c)) (S (length rest)),
       RC.start Remote remoteRead customersKey RC.fresh (r, c))).
  { exact (calls_single_flight Remote remoteRead customersKey (r, c)
             first rest Hnone). }
  assert (Hst : st = RC.start Remote remoteRead customersKey RC.fresh (r, c)).
  { unfold st. rewrite Hcalled. reflexivity. }
  destruct (start_spec Remote remoteRead customersKey RC.fresh (r, c))
    as (Hr & _ & Ht & _).
  destruct (settle_start Remote remoteRead customersKey RC.fresh (r, c) Hfresh)
    as (Hr' & He' & _).
  cbn [fst snd] in Hr, Ht, Hr', He'.
  unfold settledSt. rewrite Hst.
  split; [rewrite Hr; apply remoteRead_listCalls|].
  split; [rewrite Hcalled; reflexivity|].
  split; [rewrite Ht; apply arrived_fresh, Hfresh|].
  split; [rewrite Hr'; apply remoteRead_listCalls|].
  split.
  - rewrite He'. destruct (fst (remoteRead customersKey r)); reflexivity.
  - intros Ho. rewrite He', (remoteRead_online r Ho). reflexivity.
Qed.

Lemma concurrent_reads_share_one_fetch_witness :
  let called :=
    ResourceCache.calls Remote remoteRead customersKey
      [ResourceCache.ReadCall; ResourceCache.ReadCall; ResourceCache.FetchCall]
      (remote world0, ResourceCache.empty) in
  let settledSt :=
    ResourceCache.settle Remote remoteRead customersKey (snd called) in
  listCalls (fst (snd called)) = 1%nat
  /\ fst called = [Some 0%nat; Some 0%nat; Some 0%nat]
  /\ ResourceCache.arrived 0 (ResourceCache.transit (snd (snd called)))
     = Some (Normal (customersToJs [customerA]))
  /\ listCalls (fst settledSt) = 1%nat
  /\ ResourceCache.entryOf Remote customersKey settledSt
     = ResourceCache.settled ResourceCache.fresh
         (Normal (customersToJs [customerA]))
  /\ ResourceCache.value (ResourceCache.entryOf Remote customersKey settledSt)
     = Some (customersToJs [customerA]).
Proof.
  destruct (concurrent_reads_share_one_fetch (remote world0)
              ResourceCache.empty ResourceCache.ReadCall
              [ResourceCache.ReadCall; ResourceCache.FetchCall]
              eq_refl (Forall_nil _)) as (H1 & H2 & H3 & H4 & H5 & H6).
  split; [exact H1|]. split; [exact H2|]. split; [exact H3|].
  split; [exact H4|]. split; [exact H5|]. exact (H6 eq_refl).
Defined.

(** C5.  When [invalidate] is issued for the customers key while a fetch
    for it is in flight: the invalidation leaves that fetch in flight and
    starts none of its own; as the fetch in flight settles, its outcome is
    dropped and a follow-up fetch is started, a new request that invokes
    the list operation once more; and when the follow-up settles the entry
    holds its outcome. *)
Theorem invalidation_in_flight_refetches :
  forall (r : Remote) (c : ResourceCache.Cache) (id : nat)
         (oc : Completion jsval),
    ResourceCache.attached Remote customersKey (r, c) id ->
    ResourceCache.arrived id (ResourceCache.transit c) = Some oc ->
    Forall (fun ic => (fst ic < ResourceCache.nextRequest c)%nat)
           (ResourceCache.transit c) ->
    let st1 := ResourceCache.invalidate Remote remoteRead customersKey (r, c) in
    let st2 := ResourceCache.settle Remote remoteRead customersKey st1 in
    let st3 := ResourceCache.settle Remote remoteRead customersKey st2 in
    (listCalls (fst st1) = listCalls r
     /\ ResourceCache.attached Remote customersKey st1 id)
    /\ (listCalls (fst st2) = S (listCalls r)
        /\ ResourceCache.attached Remote customersKey st2
             (ResourceCache.nextRequest c)
        /\ ResourceCache.nextRequest c <> id
        /\ ResourceCache.value (ResourceCache.entryOf Remote customersKey st2)
           = ResourceCache.value
               (ResourceCache.entryOf Remote customersKey (r, c)))
    /\ (listCalls (fst st3) = S (listCalls r)
        /\ ResourceCache.entryOf Remote customersKey st3
           = ResourceCache.settled
               (ResourceCache.entryOf Remote customersKey st2)
               (fst (remoteRead customersKey r))).
Proof.
  intros r c id oc Ha Harr Hfresh st1 st2 st3.
  destruct (invalidate_in_flight Remote remoteRead customersKey (r, c) id oc
              Ha Harr Hfresh) as (H1 & Ha1 & H2 & Ha2 & Hv & H3 & He3).
  subst st1 st2 st3. cbn [fst snd] in H1, H2, Ha2, H3. repeat split.
  - rewrite H1. reflexivity.
  - exact Ha1.
  - rewrite H2. apply remoteRead_listCalls.
  - exact Ha2.
  - pose proof (arrived_below _ _ _ _ Hfresh Harr). lia.
  - exact Hv.
  - rewrite H3, H2. apply remoteRead_listCalls.
  - exact He3.
Qed.

(** ** A successful create is read back from the store *)

Lemma customerOfJs_form fn ln bn em :
  Store.customerOfJs
    (VObj [(js "firstName", VStr fn); (js "lastName", VStr ln);
           (js "businessName", VStr bn); (js "email", VStr em)])
  = Some (customerOfForm fn ln bn em).
Proof. reflexivity. Qed.

Lemma network_create r fn ln bn em :
  online r = true ->
  existsb (Store.hasEmail em) (stored r) = false ->
  network (createRequest fn ln bn em) r
  = (Responded {| ok := true;
                  json := Normal (customerToJs (customerOfForm fn ln bn em)) |},
     {| stored := stored r ++ [customerOfForm fn ln bn em]; online := true;
        requests := requests r ++ [createRequest fn ln bn em] |}).
Proof.
  intros Ho Hnew. unfold network. rewrite Ho.
  unfold Store.serve.
  change (url (createRequest fn ln bn em)) with (js "/api/customers").
  change (method (createRequest fn ln bn em)) with (js "POST").
  change (jsstring_eqb (js "/api/customers") (js "/api/customers")) with true.
  change (jsstring_eqb (js "POST") (js "GET")) with false.
  change (jsstring_eqb (js "POST") (js "POST")) with true.
  cbv iota. unfold Store.create.
  change (body (createRequest fn ln bn em))
    with (Some (VObj [(js "firstName", VStr fn); (js "lastName", VStr ln);
                      (js "businessName", VStr bn); (js "email", VStr em)])).
  cbv beta iota. rewrite customerOfJs_form.
  change (email (customerOfForm fn ln bn em)) with em.
  rewrite Hnew. reflexivity.
Qed.

Lemma mutate_spec w :
  ResourceCache.wellFormed customersKey (cache w) ->
  online (remote w) = true ->
  let answer := fst (mutate customersKey w) in
  let w' := snd (mutate customersKey w) in
  answer = Normal (customersToJs (stored (remote w)))
  /\ stored (remote w') = stored (remote w)
  /\ online (remote w') = true
  /\ requests (remote w') = requests (remote w) ++ [listRequest]
  /\ (exists e,
        RC.find customersKey (RC.entries (cache w')) = Some e
        /\ RC.value e = Some (customersToJs (stored (remote w)))
        /\ RC.status e = RC.resolved
        /\ RC.error e = None)
  /\ userConfirms w' = userConfirms w
  /\ form w' = form w.
Proof.
  intros Hwf Ho answer w'. subst answer w'. unfold mutate.
  destruct (invalidate_quiesce Remote remoteRead customersKey
              (remote w, cache w) Hwf) as (Hr & e & He & _).
  cbn [fst snd] in Hr, He.
  set (st := RC.quiesce Remote remoteRead 2 customersKey
               (RC.invalidate Remote remoteRead customersKey
                  (remote w, cache w))) in *.
  rewrite (remoteRead_online _ Ho) in He. cbn [RC.settled] in He.
  destruct (remoteRead_requests customersKey (remote w)) as (Hq & Hs & Hon).
  cbn [fst snd withCache remote cache userConfirms form].
  rewrite He, Hr, Hq, Hs, Hon, Ho. repeat split.
  unfold RC.entryOf in He.
  destruct (RC.find customersKey (RC.entries (snd st))) as [e'|].
  - exists e'. subst e'. auto.
  - discriminate He.
Qed.

Lemma useSWR_resolved w e v :
  RC.find customersKey (RC.entries (cache w)) = Some e ->
  RC.value e = Some v -> RC.status e = RC.resolved -> RC.error e = None ->
  useSWR customersKey w
  = ({| data := v; error := VUndefined; isLoading := false |}, w).
Proof.
  intros Hf Hv Hs Herr. unfold useSWR, RC.read. cbn [fst snd].
  rewrite Hf, Hs. unfold swrResponse, withCache. rewrite Hv, Hs, Herr.
  destruct w. reflexivity.
Qed.

Lemma run_handleClose {W : Type} (env : Env W) (w : W) :
  outcome (run env handleClose w) = Returned tt
  /\ trace (run env handleClose w) = closing.
Proof.
  destruct (handleClose_paths _ _ (run_path env handleClose w)) as [-> ->].
  auto.
Qed.

(** The run of [handleCreate] in which the store accepts the customer and
    the invalidation resolves, in any surroundings. *)
Lemma run_handleCreate_invalidated {W : Type} (env : Env W)
      (w w0 w1 w2 : W) fn ln bn em u res v :
  blank fn ln em = false ->
  env unit PreventDefault w = (u, w0) ->
  env FetchOutcome (Fetch (createRequest fn ln bn em)) w0 = (Responded res, w1) ->
  ok res = true ->
  env (Completion jsval) (Mutate customersKey) w1 = (Normal v, w2) ->
  let r := run env (handleCreate fn ln bn em) w in
  outcome r = Returned tt
  /\ final r = final (run env handleClose w2)
  /\ trace r = EPreventDefault
               :: EFetch (createRequest fn ln bn em) (Responded res)
               :: EMutate customersKey (Normal v) :: closing.
Proof.
  intros Hb E0 E1 Hok E2 r. subst r.
  destruct (run_handleClose env w2) as [Ho Ht].
  unfold handleCreate. rewrite blank_spec, Hb.
  unfold awaitFetch, awaitMutate, eval.
  cbn [bind trigger run tryCatch]. rewrite E0.
  cbn [bind trigger run tryCatch outcome final trace entry].
  fold (createRequest fn ln bn em). rewrite E1.
  cbn [bind trigger run tryCatch outcome final trace entry].
  rewrite Hok.
  cbn [bind trigger run tryCatch outcome final trace entry negb].
  fold customersKey. rewrite E2.
  cbn [bind trigger run tryCatch outcome final trace entry].
  assert (Hfree : forall (p : Prog unit) (h : jsval -> Prog unit) (w' : W),
    outcome (run env p w') = Returned tt ->
    run env (tryCatch p h) w' = run env p w').
  { intros p h. induction p as [a|t|X e k IH]; intros w' Hret; simpl in *.
    - reflexivity.
    - discriminate Hret.
    - destruct (env X e w') as [x w'']. simpl in *.
      rewrite (IH x w'' Hret). reflexivity. }
  rewrite (Hfree handleClose _ w2 Ho), Ho, Ht. auto.
Qed.

Lemma run_create_sim w fn ln bn em :
  online (remote w) = true ->
  ResourceCache.wellFormed customersKey (cache w) ->
  blank fn ln em = false ->
  existsb (Store.hasEmail em) (stored (remote w)) = false ->
  let new := customerOfForm fn ln bn em in
  let r := run simEnv (handleCreate fn ln bn em) w in
  outcome r = Returned tt
  /\ trace r
     = EPreventDefault
       :: EFetch (createRequest fn ln bn em)
            (Responded {| ok := true; json := Normal (customerToJs new) |})
       :: EMutate customersKey
            (Normal (customersToJs (stored (remote w) ++ [new])))
       :: closing
  /\ stored (remote (final r)) = stored (remote w) ++ [new]
  /\ requests (remote (final r))
     = requests (remote w) ++ [createRequest fn ln bn em; listRequest]
  /\ exists e,
       RC.find customersKey (RC.entries (cache (final r))) = Some e
       /\ RC.value e = Some (customersToJs (stored (remote w) ++ [new]))
       /\ RC.status e = RC.resolved
       /\ RC.error e = None.
Proof.
  intros Ho Hwf Hb Hnew new r.
  set (w1 := withCache w
               ({| stored := stored (remote w) ++ [new]; online := true;
                   requests := requests (remote w)
                               ++ [createRequest fn ln bn em] |}, cache w)).
  assert (E1 : simEnv FetchOutcome (Fetch (createRequest fn ln bn em)) w
               = (Responded {| ok := true; json := Normal (customerToJs new) |},
                  w1)).
  { cbn [simEnv]. rewrite (network_create (remote w) fn ln bn em Ho Hnew).
    reflexivity. }
  assert (Hwf1 : RC.wellFormed customersKey (cache w1)) by exact Hwf.
  assert (Ho1 : online (remote w1) = true) by reflexivity.
  destruct (mutate_spec w1 Hwf1 Ho1)
    as (Hans & Hst & Hon & Hreq & (e & Hf & Hv & Hs & Herr) & _).
  assert (E2 : simEnv (Completion jsval) (Mutate customersKey) w1
               = (Normal (customersToJs (stored (remote w) ++ [new])),
                  snd (mutate customersKey w1))).
  { cbn [simEnv]. rewrite (surjective_pairing (mutate customersKey w1)).
    cbn [fst snd]. rewrite Hans. reflexivity. }
  destruct (run_handleCreate_invalidated simEnv w w w1
              (snd (mutate customersKey w1)) fn ln bn em tt _ _
              Hb eq_refl E1 eq_refl E2) as (Hout & Hfin & Htr).
  fold r in Hout, Hfin, Htr.
  pose proof (run_frame simEnv (fun x => (remote x, cache x)) reachesStore
                simEnv_frames_store handleClose (snd (mutate customersKey w1)))
    as Hframe.
  rewrite (proj2 (run_handleClose simEnv _)) in Hframe.
  specialize (Hframe eq_refl). rewrite <- Hfin in Hframe.
  pose proof (f_equal fst Hframe) as Hrem.
  pose proof (f_equal snd Hframe) as Hcache.
  cbn [fst snd] in Hrem, Hcache. rewrite Hrem, Hcache.
  split; [exact Hout|]. split; [exact Htr|].
  split; [exact Hst|].
  split; [rewrite Hreq; subst w1; cbn [withCache remote fst requests];
          rewrite <- app_assoc; reflexivity|].
  exists e. auto.
Qed.

(** C6.  In the modelled surroundings (store reachable, cache well formed),
    a [handleCreate] on a filled form whose email the store does not hold
    yet returns after the POST, the invalidation and the closing of the
    dialog; the store then holds the old collection followed by the new
    customer; the handler wrote nothing into the cache itself: the list
    was fetched again after the POST, and the next read of the customers
    key returns that fetched collection, new customer included. *)
Theorem created_customer_is_read_back :
  forall (w : World) (firstName lastName businessName email : jsstring),
    online (remote w) = true ->
    ResourceCache.wellFormed customersKey (cache w) ->
    blank firstName lastName email = false ->
    existsb (Store.hasEmail email) (stored (remote w)) = false ->
    let new := customerOfForm firstName lastName businessName email in
    let r := run simEnv (handleCreate firstName lastName businessName email) w in
    outcome r = Returned tt
    /\ trace r
       = EPreventDefault
         :: EFetch (createRequest firstName lastName businessName email)
              (Responded {| ok := true; json := Normal (customerToJs new) |})
         :: EMutate customersKey
              (Normal (customersToJs (stored (remote w) ++ [new])))
         :: closing
    /\ stored (remote (final r)) = stored (remote w) ++ [new]
    /\ requests (remote (final r))
       = requests (remote w)
         ++ [createRequest firstName lastName businessName email; listRequest]
    /\ fst (useSWR customersKey (final r))
       = {| data := customersToJs (stored (remote w) ++ [new]);
            error := VUndefined; isLoading := false |}
    /\ In (customerToJs new)
          (match data (fst (useSWR customersKey (final r))) with
           | VArr custs => custs
           | _ => []
           end).
Proof.
  intros w fn ln bn em Ho Hwf Hb Hnew new r.
  destruct (run_create_sim w fn ln bn em Ho Hwf Hb Hnew)
    as (Hout & Htr & Hst & Hreq & (e & Hf & Hv & Hs & Herr)).
  fold new r in Hout, Htr, Hst, Hreq, Hf, Hv.
  rewrite (useSWR_resolved (final r) e _ Hf Hv Hs Herr).
  split; [exact Hout|]. split; [exact Htr|]. split; [exact Hst|].
  split; [exact Hreq|]. split; [reflexivity|].
  cbn [fst data customersToJs].
  apply in_map, in_or_app. right. left. reflexivity.
Qed.

(** ** The list as the store returned it *)

Lemma renderRow_customer c : renderRow (customerToJs c) = Ret (customerRow c).
Proof.
  destruct c as [f l [[|x b]|] e]; reflexivity.
Qed.

Lemma mapRows_customers cs :
  mapRows (map customerToJs cs) = Ret (map customerRow cs).
Proof.
  induction cs as [|c cs IH]; simpl; [reflexivity|].
  rewrite renderRow_customer, IH. reflexivity.
Qed.

Lemma first_read w :
  RC.find customersKey (RC.entries (cache w)) = None ->
  Forall (fun ic => (fst ic < RC.nextRequest (cache w))%nat)
         (RC.transit (cache w)) ->
  online (remote w) = true ->
  let w1 := snd (useSWR customersKey w) in
  fst (useSWR customersKey w)
  = {| data := VUndefined; error := VUndefined; isLoading := true |}
  /\ useSWR customersKey (settles customersKey w1)
     = ({| data := customersToJs (stored (remote w)); error := VUndefined;
           isLoading := false |}, settles customersKey w1).
Proof.
  intros Hnone Hfresh Ho w1.
  assert (Hread : RC.read Remote remoteRead customersKey (remote w, cache w)
                  = (RC.entryOf Remote customersKey
                       (RC.start Remote remoteRead customersKey RC.fresh
                          (remote w, cache w)),
                     RC.start Remote remoteRead customersKey RC.fresh
                       (remote w, cache w))).
  { unfold RC.read. cbn [fst snd]. rewrite Hnone.
    pose proof (first_call Remote remoteRead customersKey (remote w, cache w)
                  RC.FetchCall Hnone) as Hc.
    cbn [RC.call] in Hc. rewrite Hc. reflexivity. }
  destruct (start_spec Remote remoteRead customersKey RC.fresh
              (remote w, cache w)) as (_ & He & _).
  destruct (settle_start Remote remoteRead customersKey RC.fresh
              (remote w, cache w) Hfresh) as (_ & He' & _).
  cbn [fst snd] in He, He'. rewrite (remoteRead_online _ Ho) in He'.
  cbn [RC.settled] in He'.
  assert (Hw1 : cacheState w1
                = RC.start Remote remoteRead customersKey RC.fresh
                    (remote w, cache w)).
  { subst w1. unfold useSWR. rewrite Hread. unfold cacheState, withCache.
    cbn [snd remote cache]. symmetry. apply surjective_pairing. }
  split.
  - unfold useSWR. rewrite Hread, He. reflexivity.
  - unfold RC.entryOf in He'. rewrite <- Hw1 in He'.
    destruct (RC.find customersKey
                (RC.entries (snd (RC.settle Remote remoteRead customersKey
                                    (cacheState w1))))) as [e|] eqn:Hf;
      [|discriminate He'].
    subst e.
    rewrite (useSWR_resolved (settles customersKey w1) _ _ Hf eq_refl eq_refl
               eq_refl).
    reflexivity.
Qed.

(** ** Well-formedness of the cache is kept *)

Section CacheInvariant.

Variable R : Type.
Variable remoteRead : jsstring -> R -> Completion jsval * R.
Variable key : jsstring.

Lemma wellFormed_start e st :
  Forall (fun ic => (fst ic < RC.nextRequest (snd st))%nat)
         (RC.transit (snd st)) ->
  RC.wellFormed key (snd (RC.start R remoteRead key e st)).
Proof.
  intros Hfresh.
  destruct (start_spec R remoteRead key e st) as (_ & He & Ht & Hn).
  split.
  - rewrite Ht, Hn. apply Forall_app. split.
    + eapply Forall_impl; [|exact Hfresh]. simpl. intros a Ha. lia.
    + constructor; [simpl; lia|constructor].
  - unfold RC.entryOf in He.
    destruct (RC.find key (RC.entries (snd (RC.start R remoteRead key e st))))
      as [e'|]; [|exact I].
    subst e'. intros _. simpl.
    exists (RC.nextRequest (snd st)), (fst (remoteRead key (fst st))).
    split; [reflexivity|]. rewrite Ht. apply arrived_fresh, Hfresh.
Qed.

Lemma wellFormed_fetch st :
  RC.wellFormed key (snd st) ->
  RC.wellFormed key (snd (snd (RC.fetch R remoteRead key st))).
Proof.
  intros Hwf. unfold RC.fetch.
  destruct (RC.isLoadingStatus (RC.status (RC.entryOf R key st))).
  - exact Hwf.
  - apply wellFormed_start, Hwf.
Qed.

Lemma wellFormed_read st :
  RC.wellFormed key (snd st) ->
  RC.wellFormed key (snd (snd (RC.read R remoteRead key st))).
Proof.
  intros Hwf. unfold RC.read.
  destruct (RC.find key (RC.entries (snd st))) as [e|].
  - destruct (RC.status e); try exact Hwf. apply wellFormed_fetch, Hwf.
  - apply wellFormed_fetch, Hwf.
Qed.

Lemma wellFormed_invalidate st :
  RC.wellFormed key (snd st) ->
  RC.wellFormed key (snd (RC.invalidate R remoteRead key st)).
Proof.
  intros Hwf. unfold RC.invalidate.
  destruct (RC.isLoadingStatus (RC.status (RC.entryOf R key st))) eqn:Hl.
  - destruct Hwf as [Hfresh He]. split; [exact Hfresh|].
    simpl. rewrite find_put. simpl. intros _.
    unfold RC.entryOf in *.
    destruct (RC.find key (RC.entries (snd st))); [|discriminate Hl].
    exact (He Hl).
  - apply wellFormed_start, Hwf.
Qed.

Lemma wellFormed_settle st :
  RC.wellFormed key (snd st) ->
  RC.wellFormed key (snd (RC.settle R remoteRead key st)).
Proof.
  intros Hwf. unfold RC.settle.
  destruct (RC.inflightRequest (RC.entryOf R key st)) as [id|]; [|exact Hwf].
  destruct (RC.arrived id (RC.transit (snd st))) as [c|]; [|exact Hwf].
  destruct (RC.stale (RC.entryOf R key st)).
  - apply wellFormed_start. simpl. apply landed_below, Hwf.
  - split; simpl.
    + apply landed_below, Hwf.
    + rewrite find_put. destruct c; discriminate.
Qed.

Lemma wellFormed_quiesce fuel st :
  RC.wellFormed key (snd st) ->
  RC.wellFormed key (snd (RC.quiesce R remoteRead fuel key st)).
Proof.
  revert st. induction fuel as [|fuel IH]; intros st Hwf; simpl.
  - exact Hwf.
  - destruct (RC.isLoadingStatus (RC.status (RC.entryOf R key st)));
      [|exact Hwf].
    apply IH, wellFormed_settle, Hwf.
Qed.

End CacheInvariant.

Lemma wellFormed_empty key : RC.wellFormed key RC.empty.
Proof. split; [constructor|exact I]. Qed.

Lemma simEnv_wellFormed (X : Type) (e : Event X) (w : World) :
  onCustomersKey X e ->
  RC.wellFormed customersKey (cache w) ->
  RC.wellFormed customersKey (cache (snd (simEnv X e w))).
Proof.
  intros Hkey Hwf.
  destruct e; cbn [simEnv onCustomersKey snd withForm cache] in *;
    try exact Hwf.
  - destruct (network req (remote w)). exact Hwf.
  - subst key. unfold mutate. cbn [snd withCache cache].
    apply (wellFormed_quiesce Remote remoteRead customersKey 2).
    apply wellFormed_invalidate. exact Hwf.
  - subst key. unfold useSWR.
    pose proof (wellFormed_read Remote remoteRead customersKey
                  (remote w, cache w) Hwf) as H.
    destruct (RC.read Remote remoteRead customersKey (remote w, cache w)).
    exact H.
Qed.

Lemma run_invariant {W A : Type} (env : Env W)
      (P : forall X : Type, Event X -> Prop) (I : W -> Prop) :
  (forall X (e : Event X) w, P X e -> I w -> I (snd (env X e w))) ->
  forall (p : Prog A) (w : W),
    Performs P p -> I w -> I (final (run env p w)).
Proof.
  intros Hstep p. induction p as [a|t|X e k IH]; intros w Hp Hw; simpl.
  - exact Hw.
  - exact Hw.
  - destruct Hp as [He Hk]. pose proof (Hstep X e w He Hw) as Hw1.
    destruct (env X e w) as [x w1]. simpl in *. apply IH; auto.
Qed.

Lemma Performs_bind {A B : Type} P (p : Prog A) (f : A -> Prog B) :
  Performs P p -> (forall a, Performs P (f a)) -> Performs P (bind p f).
Proof.
  intros Hp Hf. induction p as [a|t|X e k IH]; simpl in *; auto.
  destruct Hp as [He Hk]. auto.
Qed.

Lemma Performs_tryCatch {A : Type} P (p : Prog A) (h : jsval -> Prog A) :
  Performs P p -> (forall v, Performs P (h v)) -> Performs P (tryCatch p h).
Proof.
  intros Hp Hh. induction p as [a|t|X e k IH]; simpl in *; auto.
  destruct Hp as [He Hk]. auto.
Qed.

Lemma Performs_eval {A : Type} P (c : Completion A) : Performs P (eval c).
Proof. destruct c; exact I. Qed.

Ltac performs :=
  repeat first
    [ apply Performs_bind
    | apply Performs_tryCatch
    | apply Performs_eval
    | intros ?
    | match goal with
      | |- Performs _ (if ?b then _ else _) => destruct b
      | |- Performs _ (match ?x with _ => _ end) => destruct x
      end
    | (simpl; repeat split; reflexivity) ].

Lemma handleCreate_keys fn ln bn em :
  Performs onCustomersKey (handleCreate fn ln bn em).
Proof.
  unfold handleCreate, awaitFetch, awaitMutate, handleClose. performs.
Qed.

Lemma handleDelete_keys custEmail :
  Performs onCustomersKey (handleDelete custEmail).
Proof.
  unfold handleDelete, awaitFetch, awaitMutate. performs.
Qed.

Lemma renderRow_keys P cust : Performs P (renderRow cust).
Proof. unfold renderRow. performs. Qed.

Lemma renderRows_keys P customers : Performs P (renderRows customers).
Proof.
  destruct customers as [| | | | |custs| |]; try exact I.
  cbn [renderRows]. induction custs as [|c custs IH]; [exact I|].
  cbn [mapRows]. apply Performs_bind; [apply renderRow_keys|].
  intros r. apply Performs_bind; [exact IH|]. intros rs. exact I.
Qed.

Lemma render_keys : Performs onCustomersKey render.
Proof.
  unfold render. cbn [bind trigger Performs]. split; [reflexivity|].
  intros swr. apply Performs_bind; [performs|]. intros errorText.
  apply Performs_bind; [|intros rows; exact I].
  destruct (toBoolean (data swr)); [|exact I].
  apply Performs_bind; [apply renderRows_keys|]. intros rs. exact I.
Qed.

(** Every world the page reaches from a well-formed cache has a
    well-formed cache: through the handlers, the render pass and the
    settling of a fetch. *)
Lemma page_keeps_cache_wellFormed (w : World) :
  RC.wellFormed customersKey (cache w) ->
  (forall fn ln bn em,
     RC.wellFormed customersKey
       (cache (final (run simEnv (handleCreate fn ln bn em) w))))
  /\ (forall custEmail,
        RC.wellFormed customersKey
          (cache (final (run simEnv (handleDelete custEmail) w))))
  /\ RC.wellFormed customersKey (cache (final (run simEnv render w)))
  /\ RC.wellFormed customersKey (cache (settles customersKey w)).
Proof.
  intros Hwf.
  pose proof (fun A => @run_invariant World A simEnv onCustomersKey
                (fun x => RC.wellFormed customersKey (cache x))
                simEnv_wellFormed) as Hinv.
  split; [|split; [|split]].
  - intros. apply (Hinv unit); [apply handleCreate_keys|exact Hwf].
  - intros. apply (Hinv unit); [apply handleDelete_keys|exact Hwf].
  - apply (Hinv View); [apply render_keys|exact Hwf].
  - apply (wellFormed_settle Remote remoteRead customersKey (cacheState w) Hwf).
Qed.

(** ** The scenarios of the spec, as instances *)

Lemma invalidation_in_flight_refetches_witness :
  let st1 := ResourceCache.invalidate Remote remoteRead customersKey
               (remoteAfterCreate, cache worldLoading) in
  let st2 := ResourceCache.settle Remote remoteRead customersKey st1 in
  let st3 := ResourceCache.settle Remote remoteRead customersKey st2 in
  (listCalls (fst st1) = listCalls remoteAfterCreate
   /\ ResourceCache.attached Remote customersKey st1 0)
  /\ (listCalls (fst st2) = S (listCalls remoteAfterCreate)
      /\ ResourceCache.attached Remote customersKey st2
           (ResourceCache.nextRequest (cache worldLoading))
      /\ ResourceCache.nextRequest (cache worldLoading) <> 0%nat
      /\ ResourceCache.value (ResourceCache.entryOf Remote customersKey st2)
         = ResourceCache.value
             (ResourceCache.entryOf Remote customersKey
                (remoteAfterCreate, cache worldLoading)))
  /\ (listCalls (fst st3) = S (listCalls remoteAfterCreate)
      /\ ResourceCache.entryOf Remote customersKey st3
         = ResourceCache.settled
             (ResourceCache.entryOf Remote customersKey st2)
             (fst (remoteRead customersKey remoteAfterCreate))).
Proof.
  apply (invalidation_in_flight_refetches remoteAfterCreate
           (cache worldLoading) 0 (Normal (customersToJs [customerA]))).
  - eexists. split; [reflexivity|]. split; reflexivity.
  - reflexivity.
  - repeat constructor.
Defined.

Lemma created_customer_is_read_back_witness :
  let r := run simEnv (handleCreate (js "C") (js "D") [] (js "c@x.com"))
             world0 in
  outcome r = Returned tt
  /\ trace r
     = EPreventDefault
       :: EFetch (createRequest (js "C") (js "D") [] (js "c@x.com"))
            (Responded {| ok := true; json := Normal (customerToJs customerC) |})
       :: EMutate customersKey (Normal (customersToJs [customerA; customerC]))
       :: closing
  /\ stored (remote (final r)) = [customerA; customerC]
  /\ requests (remote (final r))
     = [createRequest (js "C") (js "D") [] (js "c@x.com"); listRequest]
  /\ fst (useSWR customersKey (final r))
     = {| data := customersToJs [customerA; customerC];
          error := VUndefined; isLoading := false |}
  /\ In (customerToJs customerC)
        (match data (fst (useSWR customersKey (final r))) with
         | VArr custs => custs
         | _ => []
         end).
Proof.
  apply (created_customer_is_read_back world0 (js "C") (js "D") []
           (js "c@x.com")).
  - reflexivity.
  - split; [constructor|exact I].
  - reflexivity.
  - reflexivity.
Defined.

(** Removing an email the store does not hold: the store answers
    not-found, the handler reports its message, and the cached collection
    still holds [a@x.com]. *)
Example remove_unknown_email :
  let w := settles customersKey worldLoading in
  let r := run simEnv (handleDelete (js "zz@x.com")) w in
  reports (trace r)
  = [EConsoleError (VError (js "Error") (js "Customer not found"));
     EAlert (VStr (js "Customer not found"))]
  /\ fst (useSWR customersKey (final r))
     = {| data := customersToJs [customerA]; error := VUndefined;
          isLoading := false |}.
Proof. split; reflexivity. Qed.

(** A create issued while the first fetch of the list is still in flight:
    the next read returns both customers, not the list that fetch saw. *)
Example create_while_loading :
  let r := run simEnv (handleCreate (js "C") (js "D") [] (js "c@x.com"))
             worldLoading in
  listCalls (remote worldLoading) = 1%nat
  /\ listCalls (remote (final r)) = 2%nat
  /\ fst (useSWR customersKey (final r))
     = {| data := customersToJs [customerA; customerC]; error := VUndefined;
          isLoading := false |}.
Proof. repeat split. Qed.

(** Two reads before any response: one list call. *)
Example two_reads_one_list_call :
  let w := final (run simEnv render worldLoading) in
  listCalls (remote w) = 1%nat
  /\ outcome (run simEnv render (settles customersKey w))
     = Returned {| count := VNum 1; loadingLine := false; errorLine := None;
                   table := Some [customerRow customerA] |}.
Proof. split; reflexivity. Qed.

(** Removing a customer the store holds: the next read no longer has it. *)
Example remove_known_email :
  let w := settles customersKey worldLoading in
  let r := run simEnv (handleDelete (js "a@x.com")) w in
  stored (remote (final r)) = []
  /\ fst (useSWR customersKey (final r))
     = {| data := customersToJs []; error := VUndefined; isLoading := false |}.
Proof. split; reflexivity. Qed.

(** With the network down the create is reported and nothing is cached. *)
Example create_offline :
  let w := {| remote := {| stored := [customerA]; online := false;
                           requests := [] |};
              cache := ResourceCache.empty; userConfirms := true;
              form := form world0 |} in
  let r := run simEnv (handleCreate (js "C") (js "D") [] (js "c@x.com")) w in
  reports (trace r)
  = [EConsoleError (typeError (js "Failed to fetch"));
     EAlert (VStr (js "Failed to fetch"))]
  /\ cache (final r) = ResourceCache.empty
  /\ form (final r) = form world0.
Proof. repeat split. Qed.

(** * Further properties of the page's code *)

(** ** The encoded email of the DELETE request *)

Ltac Zify.zify_post_hook ::= Z.to_euclidean_division_equations.

Lemma hexDigit_safe d : d < 16 -> isUnreserved (hexDigit d) = true.
Proof.
  intros H. destruct d as [|p]; [reflexivity|].
  repeat (destruct p as [p|p|]; try reflexivity; try lia).
Qed.

Lemma hexDigit_inj d d' : d < 16 -> d' < 16 -> hexDigit d = hexDigit d' -> d = d'.
Proof.
  unfold hexDigit. intros H H' E.
  destruct (N.ltb_spec d 10), (N.ltb_spec d' 10); lia.
Qed.

Lemma percent_safe o : o < 256 -> forallb urlSafe (percent o) = true.
Proof.
  intros H. unfold percent. cbn [forallb]. unfold urlSafe at 1 2 3.
  rewrite (hexDigit_safe (o / 16)) by lia.
  rewrite (hexDigit_safe (o mod 16)) by lia.
  reflexivity.
Qed.

Lemma percent_inj o o' t t' :
  o < 256 -> o' < 256 -> percent o ++ t = percent o' ++ t' ->
  o = o' /\ t = t'.
Proof.
  intros H H' E. unfold percent in E. cbn [app] in E.
  injection E as E1 E2 E3.
  apply hexDigit_inj in E1; [|lia|lia].
  apply hexDigit_inj in E2; [|lia|lia].
  split; [lia|exact E3].
Qed.

Lemma utf8_octets cp : cp < 0x110000 -> Forall (fun o => o < 256) (utf8 cp).
Proof.
  intros H. unfold utf8.
  destruct (N.ltb_spec cp 0x80); [|destruct (N.ltb_spec cp 0x800);
    [|destruct (N.ltb_spec cp 0x10000)]];
    repeat constructor; lia.
Qed.

Lemma escape_safe cp : cp < 0x110000 -> forallb urlSafe (escape cp) = true.
Proof.
  intros H. unfold escape. pose proof (utf8_octets cp H) as Ho.
  induction Ho as [|o os Ho _ IH]; [reflexivity|].
  cbn [map concat]. rewrite forallb_app, (percent_safe o Ho), IH. reflexivity.
Qed.

(** The escape of a code point is read back from the front of a string. *)
Lemma escape_inj cp cp' t t' :
  cp < 0x110000 -> cp' < 0x110000 ->
  escape cp ++ t = escape cp' ++ t' -> cp = cp' /\ t = t'.
Proof.
  intros H H' E. unfold escape, utf8 in E.
  destruct (N.ltb_spec cp 0x80); [|destruct (N.ltb_spec cp 0x800);
    [|destruct (N.ltb_spec cp 0x10000)]];
  (destruct (N.ltb_spec cp' 0x80); [|destruct (N.ltb_spec cp' 0x800);
    [|destruct (N.ltb_spec cp' 0x10000)]]);
  cbn [map concat] in E; rewrite <- ?app_assoc in E; cbn [app] in E;
  repeat match type of E with
    | percent ?o ++ _ = percent ?o' ++ _ =>
        let E1 := fresh "E" in
        apply percent_inj in E; [destruct E as [E1 E]|lia|lia]
    end;
  try (exfalso; lia);
  (split; [lia|assumption]).
Qed.

Lemma inRange_spec lo hi c : inRange lo hi c = true <-> lo <= c <= hi.
Proof.
  unfold inRange. rewrite andb_true_iff, !N.leb_le. reflexivity.
Qed.

Lemma inRange_false lo hi c : inRange lo hi c = false -> c < lo \/ hi < c.
Proof.
  unfold inRange. rewrite andb_false_iff, !N.leb_gt. tauto.
Qed.

Lemma escape_head cp : exists t, escape cp = 0x25 :: t.
Proof.
  unfold escape, utf8.
  destruct (cp <? 0x80); [|destruct (cp <? 0x800); [|destruct (cp <? 0x10000)]];
    cbn [map concat percent app]; eexists; reflexivity.
Qed.

(** The first step of the encoding: an unreserved code unit is copied, any
    other code point is escaped. *)
Lemma encodeOpt_head c rest r :
  isCodeUnit c = true ->
  encodeOpt (c :: rest) = Some r ->
  (isUnreserved c = true
   /\ exists r1, r = c :: r1 /\ encodeOpt rest = Some r1)
  \/ (isUnreserved c = false
      /\ exists cp rest' r1,
           cp < 0x110000
           /\ c :: rest = units cp ++ rest'
           /\ r = escape cp ++ r1
           /\ encodeOpt rest' = Some r1
           /\ (length rest' <= length rest)%nat).
Proof.
  intros Hc E. cbn [encodeOpt] in E. unfold isCodeUnit in Hc.
  apply N.ltb_lt in Hc.
  destruct (isUnreserved c) eqn:Hu.
  - left. split; [reflexivity|].
    destruct (encodeOpt rest) as [r1|] eqn:E1; [|discriminate E].
    injection E as <-. exists r1. split; reflexivity.
  - right. split; [reflexivity|].
    destruct (isLowSurrogate c) eqn:Hl; [discriminate E|].
    apply inRange_false in Hl.
    destruct (isHighSurrogate c) eqn:Hh.
    + apply inRange_spec in Hh.
      destruct rest as [|d rest']; [discriminate E|].
      cbv beta iota in E.
      destruct (isLowSurrogate d) eqn:Hd; [|discriminate E].
      apply inRange_spec in Hd.
      destruct (encodeOpt rest') as [r1|] eqn:E1; [|discriminate E].
      injection E as <-.
      exists ((c - 0xD800) * 0x400 + (d - 0xDC00) + 0x10000), rest', r1.
      split; [lia|]. split.
      * unfold units.
        destruct (N.ltb_spec ((c - 0xD800) * 0x400 + (d - 0xDC00) + 0x10000)
                             0x10000); [lia|].
        cbn [app]. f_equal; [lia|]. f_equal. lia.
      * split; [reflexivity|]. split; [exact E1|]. cbn [length]. apply Nat.le_succ_diag_r.
    + destruct (encodeOpt rest) as [r1|] eqn:E1; [|discriminate E].
      injection E as <-. exists c, rest, r1.
      split; [lia|]. split.
      * unfold units. destruct (N.ltb_spec c 0x10000); [reflexivity|lia].
      * split; [reflexivity|]. split; [exact E1|]. apply Nat.le_refl.
Qed.

Ltac shorter :=
  first [ apply le_S_n; assumption
        | eapply Nat.le_trans; [eassumption|]; apply le_S_n; assumption ].

Lemma encodeOpt_safe_length n :
  forall s r, (length s <= n)%nat ->
    forallb isCodeUnit s = true -> encodeOpt s = Some r ->
    forallb urlSafe r = true.
Proof.
  induction n as [|n IH]; intros s r Hn Hs E.
  - destruct s; [|exfalso; simpl in Hn; inversion Hn]. injection E as <-. reflexivity.
  - destruct s as [|c rest]; [injection E as <-; reflexivity|].
    cbn [forallb] in Hs. apply andb_true_iff in Hs as [Hc Hrest].
    simpl in Hn.
    destruct (encodeOpt_head c rest r Hc E)
      as [(Hu & r1 & -> & E1)|(_ & cp & rest' & r1 & Hcp & Hsplit & -> & E1 & Hlen)].
    + cbn [forallb]. unfold urlSafe at 1. rewrite Hu.
      apply (IH rest r1); [shorter|exact Hrest|exact E1].
    + rewrite forallb_app, (escape_safe cp Hcp).
      apply (IH rest' r1); [shorter| |exact E1].
      assert (Hall : forallb isCodeUnit (units cp ++ rest') = true).
      { rewrite <- Hsplit. cbn [forallb]. rewrite Hc, Hrest. reflexivity. }
      rewrite forallb_app in Hall. apply andb_true_iff in Hall. tauto.
Qed.

Lemma encodeOpt_inj_length n :
  forall s s' r, (length s <= n)%nat ->
    forallb isCodeUnit s = true -> forallb isCodeUnit s' = true ->
    encodeOpt s = Some r -> encodeOpt s' = Some r -> s = s'.
Proof.
  induction n as [|n IH]; intros s s' r Hn Hs Hs' E E'.
  - destruct s; [|exfalso; simpl in Hn; inversion Hn]. injection E as <-.
    destruct s' as [|c' rest']; [reflexivity|].
    cbn [forallb] in Hs'. apply andb_true_iff in Hs' as [Hc' _].
    destruct (encodeOpt_head c' rest' [] Hc' E')
      as [(_ & r1 & Hr & _)|(_ & cp & _ & r1 & _ & _ & Hr & _)].
    + discriminate Hr.
    + destruct (escape_head cp) as [t Ht]. rewrite Ht in Hr. discriminate Hr.
  - destruct s as [|c rest].
    { injection E as <-.
      destruct s' as [|c' rest']; [reflexivity|].
      cbn [forallb] in Hs'. apply andb_true_iff in Hs' as [Hc' _].
      destruct (encodeOpt_head c' rest' [] Hc' E')
        as [(_ & r1 & Hr & _)|(_ & cp & _ & r1 & _ & _ & Hr & _)].
      - discriminate Hr.
      - destruct (escape_head cp) as [t Ht]. rewrite Ht in Hr.
        discriminate Hr. }
    destruct s' as [|c' rest'].
    { injection E' as <-.
      cbn [forallb] in Hs. apply andb_true_iff in Hs as [Hc _].
      destruct (encodeOpt_head c rest [] Hc E)
        as [(_ & r1 & Hr & _)|(_ & cp & _ & r1 & _ & _ & Hr & _)].
      - discriminate Hr.
      - destruct (escape_head cp) as [t Ht]. rewrite Ht in Hr.
        discriminate Hr. }
    pose proof Hs as Hall. pose proof Hs' as Hall'.
    cbn [forallb] in Hs, Hs'.
    apply andb_true_iff in Hs as [Hc Hrest].
    apply andb_true_iff in Hs' as [Hc' Hrest'].
    simpl in Hn.
    destruct (encodeOpt_head c rest r Hc E)
      as [(Hu & r1 & Hr & E1)|(Hu & cp & t & r1 & Hcp & Hsplit & Hr & E1 & Hlen)];
    destruct (encodeOpt_head c' rest' r Hc' E')
      as [(Hu' & r1' & Hr' & E1')
         |(Hu' & cp' & t' & r1' & Hcp' & Hsplit' & Hr' & E1' & Hlen')].
    + rewrite Hr in Hr'. injection Hr' as <- <-.
      f_equal. apply (IH rest rest' r1); auto. shorter.
    + exfalso. rewrite Hr in Hr'.
      destruct (escape_head cp') as [t0 Ht]. rewrite Ht in Hr'.
      injection Hr' as -> _. discriminate Hu.
    + exfalso. rewrite Hr' in Hr.
      destruct (escape_head cp) as [t0 Ht]. rewrite Ht in Hr.
      injection Hr as -> _. discriminate Hu'.
    + rewrite Hr in Hr'.
      destruct (escape_inj cp cp' r1 r1' Hcp Hcp' Hr') as [<- <-].
      rewrite Hsplit, Hsplit'. f_equal.
      rewrite Hsplit in Hall. rewrite Hsplit' in Hall'.
      rewrite forallb_app in Hall, Hall'.
      apply andb_true_iff in Hall as [_ Ht].
      apply andb_true_iff in Hall' as [_ Ht'].
      apply (IH t t' r1); auto. shorter.
Qed.

(** Two well-formed strings with the same encoding are the same string. *)
Lemma encodeOpt_inj s s' r :
  forallb isCodeUnit s = true -> forallb isCodeUnit s' = true ->
  encodeOpt s = Some r -> encodeOpt s' = Some r -> s = s'.
Proof. apply (encodeOpt_inj_length (length s)). apply Nat.le_refl. Qed.

Lemma encodeOpt_safe s r :
  forallb isCodeUnit s = true -> encodeOpt s = Some r ->
  forallb urlSafe r = true.
Proof. apply (encodeOpt_safe_length (length s)). apply Nat.le_refl. Qed.

(** A string without surrogates is always encoded. *)
Lemma encodeOpt_plain s :
  existsb isSurrogate s = false -> exists r, encodeOpt s = Some r.
Proof.
  induction s as [|c rest IH]; intros H; [eexists; reflexivity|].
  cbn [existsb] in H. apply orb_false_iff in H as [Hc Hrest].
  apply orb_false_iff in Hc as [Hh Hl].
  destruct (IH Hrest) as [r1 E1]. cbn [encodeOpt].
  rewrite E1, Hl, Hh. destruct (isUnreserved c); eexists; reflexivity.
Qed.

(** ** Requests and invalidations of a call *)

Lemma quiet_filter (keep : Entry -> bool) tr :
  (forall e, keep e = true -> reachesStore e = true) ->
  quiet tr = true -> filter keep tr = [].
Proof.
  intros Hk. induction tr as [|a tr IH]; simpl; intros H; [reflexivity|].
  apply andb_true_iff in H as [Ha Htr]. destruct (keep a) eqn:E.
  - rewrite (Hk a E) in Ha. discriminate Ha.
  - auto.
Qed.

Lemma fetch_reaches e : isFetchEntry e = true -> reachesStore e = true.
Proof. destruct e; simpl; congruence. Qed.

Lemma mutate_reaches e : isMutate e = true -> reachesStore e = true.
Proof. destruct e; simpl; congruence. Qed.

Lemma after_write_counts fallback last answer rest o :
  AfterWrite fallback last answer rest o ->
  quiet last = true ->
  filter isFetchEntry rest = []
  /\ (length (filter isMutate rest) <= 1)%nat.
Proof.
  intros HA Hlast.
  destruct HA as [reason|res Hok|res thrown Hok|res v Hok]; cbn [filter isFetchEntry isMutate];
    rewrite ?(quiet_filter isFetchEntry _ fetch_reaches (caught_quiet _)),
            ?(quiet_filter isMutate _ mutate_reaches (caught_quiet _)),
            ?(quiet_filter isFetchEntry _ fetch_reaches Hlast),
            ?(quiet_filter isMutate _ mutate_reaches Hlast);
    split; auto.
Qed.

(** X1.  In every run of [handleCreate] and of [handleDelete] at most one
    request is sent and [mutate] is called at most once: nothing is
    retried, whatever the answers. *)
Theorem handlers_never_retry :
  forall (W : Type) (env : Env W) (w : W)
         (firstName lastName businessName email custEmail : jsstring),
    let created :=
      trace (run env (handleCreate firstName lastName businessName email) w) in
    let removed := trace (run env (handleDelete custEmail) w) in
    ((length (filter isFetchEntry created) <= 1)%nat
     /\ (length (filter isMutate created) <= 1)%nat)
    /\ ((length (filter isFetchEntry removed) <= 1)%nat
        /\ (length (filter isMutate removed) <= 1)%nat).
Proof.
  intros W env w fn ln bn em custEmail created removed. split.
  - pose proof (run_path env (handleCreate fn ln bn em) w) as HP.
    apply handleCreate_paths in HP. fold created in HP.
    destruct (blank fn ln em).
    + destruct HP as [-> _]. split; simpl; auto.
    + destruct HP as (answer & rest & -> & HA).
      destruct (after_write_counts _ _ _ _ _ HA eq_refl) as [Hf Hm].
      cbn [filter isFetchEntry isMutate]. rewrite Hf. split; [auto|exact Hm].
  - pose proof (run_path env (handleDelete custEmail) w) as HP.
    apply handleDelete_paths in HP. fold removed in HP.
    destruct HP as (confirmed & rest & -> & HP).
    cbn [filter isFetchEntry isMutate]. destruct confirmed.
    + destruct (encodeURIComponent custEmail) as [encoded|thrown].
      * destruct HP as (answer & rest' & -> & HA).
        destruct (after_write_counts _ _ _ _ _ HA eq_refl) as [Hf Hm].
        cbn [filter isFetchEntry isMutate]. rewrite Hf.
        split; [auto|exact Hm].
      * destruct HP as [-> _].
        rewrite (quiet_filter isFetchEntry _ fetch_reaches (caught_quiet _)),
                (quiet_filter isMutate _ mutate_reaches (caught_quiet _)).
        split; simpl; auto.
    + destruct HP as [-> _]. split; simpl; auto.
Qed.

(** ** Values without a message *)

Lemma getProp_abrupt v name t :
  getProp v name = Abrupt t -> isNullish v = true.
Proof. destruct v; simpl; try discriminate; reflexivity. Qed.

Lemma caught_threw thrown t :
  snd (caught thrown) = Threw t ->
  isNullish thrown = true /\ fst (caught thrown) = [EConsoleError thrown].
Proof.
  unfold caught. destruct (getProp thrown (js "message")) as [m|t'] eqn:E;
    simpl; [discriminate|].
  intros _. split; [exact (getProp_abrupt _ _ _ E)|reflexivity].
Qed.

Lemma newError_error message v :
  newError message = Normal v \/ newError message = Abrupt v ->
  isNullish v = false.
Proof.
  unfold newError, toString.
  destruct message; simpl;
    try (intros [H|H]; inversion H; reflexivity);
    match goal with
    | |- context [match ?x with Some _ => _ | None => _ end] =>
        destruct x; intros [H|H]; inversion H; reflexivity
    end.
Qed.

Lemma refusal_nullish fallback res :
  isNullish (refusal fallback res) = true ->
  json res = Abrupt (refusal fallback res).
Proof.
  unfold refusal. destruct (json res) as [msg|thrown]; [|reflexivity].
  destruct (newError (orElse (optGet msg (js "message")) (VStr fallback)))
    as [err|thrown] eqn:E; intros H.
  - rewrite (newError_error _ err (or_introl E)) in H. discriminate H.
  - rewrite (newError_error _ thrown (or_intror E)) in H. discriminate H.
Qed.

(** A handler that rejects was thrown [undefined] or [null], by [fetch], by
    the body of a response outside 2xx, or by [mutate]; it logged the value
    and showed no alert. *)
Lemma after_write_threw fallback last answer rest o t :
  AfterWrite fallback last answer rest o ->
  o = Threw t ->
  exists thrown,
    isNullish thrown = true
    /\ reports rest = [EConsoleError thrown]
    /\ (answer = Rejected thrown
        \/ (exists res, answer = Responded res /\ ok res = false
                        /\ json res = Abrupt thrown)
        \/ In (EMutate customersKey (Abrupt thrown)) rest).
Proof.
  intros HA Ho.
  destruct HA as [reason|res Hok|res thrown Hok|res v Hok].
  - destruct (caught_threw _ _ Ho) as [Hn Htr]. exists reason.
    rewrite Htr. split; [exact Hn|]. split; [reflexivity|]. left. reflexivity.
  - destruct (caught_threw _ _ Ho) as [Hn Htr].
    exists (refusal fallback res). rewrite Htr.
    split; [exact Hn|]. split; [reflexivity|]. right. left.
    exists res. split; [reflexivity|]. split; [exact Hok|].
    exact (refusal_nullish _ _ Hn).
  - destruct (caught_threw _ _ Ho) as [Hn Htr]. exists thrown.
    rewrite Htr. split; [exact Hn|]. split; [reflexivity|].
    right. right. left. reflexivity.
  - discriminate Ho.
Qed.

(** ** The dialog form *)

Lemma formAfter_app tr1 tr2 f :
  formAfter (tr1 ++ tr2) f = formAfter tr2 (formAfter tr1 f).
Proof. apply fold_left_app. Qed.

Lemma simEnv_setCell (X : Type) (e : Event X) (w : World) :
  form (snd (simEnv X e w)) = setCell (form w) (entry e (fst (simEnv X e w))).
Proof.
  destruct e; try reflexivity.
  - cbn [simEnv]. destruct (network req (remote w)) as [o r]. reflexivity.
  - cbn [simEnv]. unfold useSWR.
    destruct (ResourceCache.read Remote remoteRead key (remote w, cache w))
      as [e st].
    reflexivity.
Qed.

(** The modelled world keeps its form as the setters of the run leave
    it. *)
Lemma simEnv_form {A : Type} (p : Prog A) :
  forall w, form (final (run simEnv p w))
            = formAfter (trace (run simEnv p w)) (form w).
Proof.
  induction p as [a|t|X e k IH]; intros w; [reflexivity|reflexivity|].
  cbn [run]. pose proof (simEnv_setCell X e w) as Hs.
  destruct (simEnv X e w) as [x w1]. cbn [final trace fst snd] in *.
  rewrite IH, Hs. reflexivity.
Qed.

Lemma caught_form thrown f : formAfter (fst (caught thrown)) f = f.
Proof. unfold caught. destruct (getProp thrown (js "message")); reflexivity. Qed.

Lemma caught_succeeded thrown : succeeded (fst (caught thrown)) = false.
Proof. unfold caught. destruct (getProp thrown (js "message")); reflexivity. Qed.

Lemma after_write_form fallback last answer rest o f :
  AfterWrite fallback last answer rest o ->
  succeeded last = false ->
  formAfter rest f = if succeeded rest then formAfter last f else f.
Proof.
  intros HA Hlast.
  destruct HA as [reason|res Hok|res thrown Hok|res v Hok].
  - rewrite caught_succeeded. apply caught_form.
  - rewrite caught_succeeded. apply caught_form.
  - unfold succeeded. cbn [existsb isInvalidated orb].
    fold (succeeded (fst (caught thrown))). rewrite caught_succeeded.
    apply caught_form.
  - reflexivity.
Qed.

(** X3.  [handleCreate] closes the dialog and empties the four fields exactly
    when the POST was answered with success and [mutate] resolved; after
    the validation alert, a rejected or refused POST, or a rejected
    [mutate], the dialog and every field are what they were, so the input
    is kept for another try. *)
Theorem create_resets_form_only_on_success :
  forall (W : Type) (env : Env W) (w : W)
         (firstName lastName businessName email : jsstring) (f : Form),
    let tr :=
      trace (run env (handleCreate firstName lastName businessName email) w) in
    formAfter tr f = if succeeded tr then emptyForm false else f.
Proof.
  intros W env w fn ln bn em f tr.
  pose proof (run_path env (handleCreate fn ln bn em) w) as HP.
  apply handleCreate_paths in HP. fold tr in HP.
  destruct (blank fn ln em).
  - destruct HP as [-> _]. reflexivity.
  - destruct HP as (answer & rest & -> & HA).
    exact (after_write_form _ _ _ _ _ f HA eq_refl).
Qed.

(** X4.  [handleDelete] never writes the form: the dialog and its fields are
    what they were after every run, also one that went through. *)
Theorem delete_keeps_form :
  forall (W : Type) (env : Env W) (w : W) (custEmail : jsstring) (f : Form),
    formAfter (trace (run env (handleDelete custEmail) w)) f = f.
Proof.
  intros W env w custEmail f.
  pose proof (run_path env (handleDelete custEmail) w) as HP.
  apply handleDelete_paths in HP.
  destruct HP as (confirmed & rest & -> & HP). destruct confirmed.
  - destruct (encodeURIComponent custEmail) as [encoded|thrown].
    + destruct HP as (answer & rest' & -> & HA).
      change (formAfter rest' f = f).
      rewrite (after_write_form _ _ _ _ _ f HA eq_refl).
      destruct (succeeded rest'); reflexivity.
    + destruct HP as [-> _]. apply (caught_form thrown f).
  - destruct HP as [-> _]. reflexivity.
Qed.

Lemma run_bind {W A B : Type} (env : Env W) (p : Prog A) (f : A -> Prog B) :
  forall w,
    trace (run env (bind p f) w)
    = trace (run env p w)
      ++ match outcome (run env p w) with
         | Returned a => trace (run env (f a) (final (run env p w)))
         | Threw _ => []
         end.
Proof.
  induction p as [a|t|X e k IH]; intros w; [reflexivity|reflexivity|].
  cbn [bind run]. destruct (env X e w) as [x w1]. cbn [trace outcome final].
  rewrite IH. reflexivity.
Qed.

Lemma typing_returns {W : Type} (env : Env W) edits :
  forall w, outcome (run env (typing edits) w) = Returned tt.
Proof.
  induction edits as [|[field value] edits IH]; intros w; [reflexivity|].
  cbn [typing]. destruct field; cbn [onChange trigger bind run];
    match goal with
    | |- context [env ?X ?e w] => destruct (env X e w) as [x w1]
    end; cbn [outcome]; apply IH.
Qed.

Lemma run_handleClose_trace {W : Type} (env : Env W) (w : W) :
  trace (run env handleClose w) = closing
  /\ outcome (run env handleClose w) = Returned tt.
Proof. exact (handleClose_paths _ _ (run_path env handleClose w)). Qed.

Lemma formAfter_closing f : formAfter closing f = emptyForm false.
Proof. reflexivity. Qed.

(** X5.  Cancel discards the input: whatever was typed into the fields, after
    [handleClose] the dialog is closed and the four fields are empty, and
    [handleOpen] then opens the dialog on the empty form. *)
Theorem cancel_discards_input :
  forall (W : Type) (env : Env W) (w : W) (edits : list (Field * jsstring))
         (f : Form),
    let cancelled := trace (run env (typing edits ;; handleClose) w) in
    let reopened :=
      trace (run env (typing edits ;; handleClose ;; handleOpen) w) in
    formAfter cancelled f = emptyForm false
    /\ formAfter reopened f = emptyForm true.
Proof.
  intros W env w edits f cancelled reopened. subst cancelled reopened.
  rewrite (run_bind env (typing edits) (fun _ => handleClose) w).
  rewrite (run_bind env (typing edits)
             (fun _ => handleClose ;; handleOpen) w).
  rewrite typing_returns.
  set (w1 := final (run env (typing edits) w)).
  destruct (run_handleClose_trace env w1) as [Hc Ho].
  rewrite (run_bind env handleClose (fun _ => handleOpen) w1).
  rewrite Hc, Ho, !formAfter_app. split; [reflexivity|].
  cbn [handleOpen trigger run].
  destruct (env unit (SetOpen true) (final (run env handleClose w1)))
    as [x w2].
  reflexivity.
Qed.

(** ** What is reported of a thrown value *)

Lemma caught_reported thrown :
  isNullish thrown = false ->
  caught thrown
  = ([EConsoleError thrown; EAlert (optGet thrown (js "message"))],
     Returned tt).
Proof. destruct thrown; try discriminate; reflexivity. Qed.

Lemma quiet_no_fetch tr req a : quiet tr = true -> ~ In (EFetch req a) tr.
Proof.
  unfold quiet. rewrite forallb_forall. intros H Hin.
  specialize (H _ Hin). discriminate H.
Qed.

Lemma after_write_no_fetch fallback last answer rest o req a :
  AfterWrite fallback last answer rest o ->
  quiet last = true -> ~ In (EFetch req a) rest.
Proof.
  intros HA Hlast Hin.
  destruct HA as [reason|res Hok|res thrown Hok|res v Hok].
  - exact (quiet_no_fetch _ _ _ (caught_quiet _) Hin).
  - exact (quiet_no_fetch _ _ _ (caught_quiet _) Hin).
  - destruct Hin as [Hin|Hin]; [discriminate Hin|].
    exact (quiet_no_fetch _ _ _ (caught_quiet _) Hin).
  - destruct Hin as [Hin|Hin]; [discriminate Hin|].
    exact (quiet_no_fetch _ _ _ Hlast Hin).
Qed.

Lemma reports_caught thrown :
  reports (fst (caught thrown)) = fst (caught thrown).
Proof. unfold caught. destruct (getProp thrown (js "message")); reflexivity. Qed.

Lemma after_write_thrown fallback last answer rest o req e thrown :
  AfterWrite fallback last answer rest o ->
  quiet last = true ->
  In e (EFetch req answer :: rest) ->
  failsWith thrown e ->
  reports rest = fst (caught thrown) /\ o = snd (caught thrown).
Proof.
  intros HA Hlast Hin Hf.
  destruct e as [| | | |req' a|key' c| | | | | |]; try (destruct Hf; fail).
  - (* the request *)
    destruct Hin as [Hin|Hin];
      [|destruct (after_write_no_fetch _ _ _ _ _ _ _ HA Hlast Hin)].
    injection Hin as _ <-.
    destruct answer as [reason|res]; cbn [failsWith] in Hf.
    + subst reason. inversion HA; subst.
      split; [apply reports_caught|reflexivity].
    + destruct Hf as [Hok Hj].
      inversion HA as [|r Hok' Ha Hr Ho|r t Hok'|r v Hok']; subst;
        try congruence.
      assert (Hr : refusal fallback res = thrown).
      { unfold refusal. rewrite Hj. reflexivity. }
      rewrite Hr. split; [apply reports_caught|reflexivity].
  - (* the invalidation *)
    destruct Hin as [Hin|Hin]; [discriminate Hin|].
    destruct c as [v|t]; cbn [failsWith] in Hf; [destruct Hf|].
    subst t.
    destruct HA as [reason|res Hok|res t Hok|res v Hok].
    + destruct (quiet_no_mutate _ _ _ (caught_quiet _) Hin).
    + destruct (quiet_no_mutate _ _ _ (caught_quiet _) Hin).
    + destruct Hin as [Hin|Hin];
        [|destruct (quiet_no_mutate _ _ _ (caught_quiet _) Hin)].
      injection Hin as _ ->.
      split; [apply (reports_caught thrown)|reflexivity].
    + destruct Hin as [Hin|Hin]; [discriminate Hin|].
      destruct (quiet_no_mutate _ _ _ Hlast Hin).
Qed.

Lemma handleCreate_thrown fn ln bn em tr o e thrown :
  Path (handleCreate fn ln bn em) tr o ->
  In e tr -> failsWith thrown e ->
  reports tr = fst (caught thrown) /\ o = snd (caught thrown).
Proof.
  intros HP Hin Hf. apply handleCreate_paths in HP.
  destruct (blank fn ln em).
  - destruct HP as [-> _].
    destruct Hin as [<-|[<-|[]]]; destruct Hf.
  - destruct HP as (answer & rest & -> & HA).
    destruct Hin as [<-|Hin]; [destruct Hf|].
    exact (after_write_thrown _ _ _ _ _ _ _ _ HA eq_refl Hin Hf).
Qed.

Lemma handleDelete_thrown custEmail tr o e thrown :
  Path (handleDelete custEmail) tr o ->
  In e tr -> failsWith thrown e ->
  reports tr = fst (caught thrown) /\ o = snd (caught thrown).
Proof.
  intros HP Hin Hf. apply handleDelete_paths in HP.
  destruct HP as (confirmed & rest & -> & HP).
  destruct Hin as [<-|Hin]; [destruct Hf|].
  destruct confirmed.
  - destruct (encodeURIComponent custEmail) as [encoded|t].
    + destruct HP as (answer & rest' & -> & HA).
      exact (after_write_thrown _ _ _ _ _ _ _ _ HA eq_refl Hin Hf).
    + destruct HP as [-> _]. exfalso.
      destruct e; try (destruct Hf; fail).
      * exact (quiet_no_fetch _ _ _ (caught_quiet _) Hin).
      * exact (quiet_no_mutate _ _ _ (caught_quiet _) Hin).
  - destruct HP as [-> _]. destruct Hin.
Qed.

(** X6.  Whatever is thrown at a handler is logged and its [message] shown: when
    [fetch] rejects, when the body of a response outside 2xx cannot be
    read, or when [mutate] rejects, with a value other than [undefined]
    and [null], [handleCreate] and [handleDelete] pass the value to
    [console.error], show its [message] property by [alert] (not their
    fallback text) and return. *)
Theorem thrown_value_is_logged_and_alerted :
  forall (W : Type) (env : Env W) (w : W)
         (firstName lastName businessName email custEmail : jsstring)
         (e : Entry) (thrown : jsval),
    let created := run env (handleCreate firstName lastName businessName email) w in
    let removed := run env (handleDelete custEmail) w in
    failsWith thrown e ->
    isNullish thrown = false ->
    (In e (trace created) ->
     reports (trace created)
     = [EConsoleError thrown; EAlert (optGet thrown (js "message"))]
     /\ outcome created = Returned tt)
    /\ (In e (trace removed) ->
        reports (trace removed)
        = [EConsoleError thrown; EAlert (optGet thrown (js "message"))]
        /\ outcome removed = Returned tt).
Proof.
  intros W env w fn ln bn em custEmail e thrown created removed Hf Hn.
  pose proof (caught_reported thrown Hn) as Hc.
  split; intros Hin.
  - destruct (handleCreate_thrown _ _ _ _ _ _ _ _
                (run_path env _ w) Hin Hf) as [Hr Ho].
    fold created in Hr, Ho. rewrite Hr, Ho, Hc. split; reflexivity.
  - destruct (handleDelete_thrown _ _ _ _ _
                (run_path env _ w) Hin Hf) as [Hr Ho].
    fold removed in Hr, Ho. rewrite Hr, Ho, Hc. split; reflexivity.
Qed.

(** ** When the promise of a handler rejects *)

Lemma caught_nullish thrown :
  isNullish thrown = true ->
  caught thrown = ([EConsoleError thrown], Threw (messageReadError thrown)).
Proof. destruct thrown; try discriminate; reflexivity. Qed.

(** A handler that rejects holds in its trace the answer that threw
    [undefined] or [null] at it. *)
Lemma after_write_thrower fallback last answer rest o t req :
  AfterWrite fallback last answer rest o ->
  o = Threw t ->
  exists e thrown,
    In e (EFetch req answer :: rest)
    /\ failsWith thrown e /\ isNullish thrown = true.
Proof.
  intros HA Ho.
  destruct (after_write_threw _ _ _ _ _ t HA Ho)
    as (thrown & Hn & _ & [->|[(res & -> & Hok & Hj)|Hin]]).
  - exists (EFetch req (Rejected thrown)), thrown.
    split; [left; reflexivity|]. split; [reflexivity|exact Hn].
  - exists (EFetch req (Responded res)), thrown.
    split; [left; reflexivity|]. split; [split; assumption|exact Hn].
  - exists (EMutate customersKey (Abrupt thrown)), thrown.
    split; [right; exact Hin|]. split; [reflexivity|exact Hn].
Qed.

Lemma handleCreate_thrower fn ln bn em tr o t :
  Path (handleCreate fn ln bn em) tr o ->
  o = Threw t ->
  exists e thrown,
    In e tr /\ failsWith thrown e /\ isNullish thrown = true.
Proof.
  intros HP Ho. apply handleCreate_paths in HP.
  destruct (blank fn ln em).
  - destruct HP as [_ ->]. discriminate Ho.
  - destruct HP as (answer & rest & -> & HA).
    destruct (after_write_thrower _ _ _ _ _ t
                (createRequest fn ln bn em) HA Ho)
      as (e & thrown & Hin & Hf & Hn).
    exists e, thrown. split; [right; exact Hin|]. split; assumption.
Qed.

Lemma handleDelete_thrower custEmail tr o t :
  Path (handleDelete custEmail) tr o ->
  o = Threw t ->
  exists e thrown,
    In e tr /\ failsWith thrown e /\ isNullish thrown = true.
Proof.
  intros HP Ho. apply handleDelete_paths in HP.
  destruct HP as (confirmed & rest & -> & HP). destruct confirmed.
  - unfold encodeURIComponent in HP.
    destruct (encodeOpt custEmail) as [encoded|].
    + destruct HP as (answer & rest' & -> & HA).
      destruct (after_write_thrower _ _ _ _ _ t
                  (deleteRequest encoded) HA Ho)
        as (e & thrown & Hin & Hf & Hn).
      exists e, thrown. split; [right; exact Hin|]. split; assumption.
    + destruct HP as [_ ->]. discriminate Ho.
  - destruct HP as [_ ->]. discriminate Ho.
Qed.

(** A call rejects exactly when an answer in its trace threw [undefined]
    or [null]. *)
Lemma rejects_exactly_on_nullish (tr : list Entry) (o : Outcome unit) :
  (forall e thrown, In e tr -> failsWith thrown e ->
     reports tr = fst (caught thrown) /\ o = snd (caught thrown)) ->
  (forall t, o = Threw t ->
     exists e thrown,
       In e tr /\ failsWith thrown e /\ isNullish thrown = true) ->
  (o = Returned tt
   /\ forall e thrown, In e tr -> failsWith thrown e ->
        isNullish thrown = false)
  \/ (exists e thrown,
        In e tr /\ failsWith thrown e /\ isNullish thrown = true
        /\ o = Threw (messageReadError thrown)
        /\ reports tr = [EConsoleError thrown]).
Proof.
  intros Hthrown Horigin. destruct o as [[]|t].
  - left. split; [reflexivity|]. intros e thrown Hin Hf.
    destruct (isNullish thrown) eqn:Hn; [|reflexivity].
    destruct (Hthrown e thrown Hin Hf) as [_ Ho].
    rewrite (caught_nullish _ Hn) in Ho. discriminate Ho.
  - right. destruct (Horigin t eq_refl) as (e & thrown & Hin & Hf & Hn).
    destruct (Hthrown e thrown Hin Hf) as [Hr Ho].
    rewrite (caught_nullish _ Hn) in Hr, Ho.
    exists e, thrown. repeat (split; [assumption|]). exact Hr.
Qed.

(** X2.  The promise of [handleCreate] and of [handleDelete] rejects
    exactly when [undefined] or [null] is thrown at the handler, by a
    rejected [fetch], by [json()] of a response outside 2xx, or by a
    rejected [mutate].  In that case the answer that threw it is in the
    trace, the value is passed to [console.error], no alert is shown, and
    the promise rejects with the TypeError of reading [message] of the
    value.  In every other run the promise resolves, and whatever an
    answer of the trace threw is neither [undefined] nor [null]. *)
Theorem handlers_reject_exactly_on_nullish :
  forall (W : Type) (env : Env W) (w : W)
         (firstName lastName businessName email custEmail : jsstring),
    let created := run env (handleCreate firstName lastName businessName email) w in
    let removed := run env (handleDelete custEmail) w in
    ((outcome created = Returned tt
      /\ forall e thrown, In e (trace created) -> failsWith thrown e ->
           isNullish thrown = false)
     \/ (exists e thrown,
           In e (trace created) /\ failsWith thrown e
           /\ isNullish thrown = true
           /\ outcome created = Threw (messageReadError thrown)
           /\ reports (trace created) = [EConsoleError thrown]))
    /\ ((outcome removed = Returned tt
         /\ forall e thrown, In e (trace removed) -> failsWith thrown e ->
              isNullish thrown = false)
        \/ (exists e thrown,
              In e (trace removed) /\ failsWith thrown e
              /\ isNullish thrown = true
              /\ outcome removed = Threw (messageReadError thrown)
              /\ reports (trace removed) = [EConsoleError thrown])).
Proof.
  intros W env w fn ln bn em custEmail created removed. split.
  - apply rejects_exactly_on_nullish.
    + intros e thrown.
      exact (handleCreate_thrown _ _ _ _ _ _ e thrown (run_path env _ w)).
    + intros t.
      exact (handleCreate_thrower _ _ _ _ _ _ t (run_path env _ w)).
  - apply rejects_exactly_on_nullish.
    + intros e thrown.
      exact (handleDelete_thrown _ _ _ e thrown (run_path env _ w)).
    + intros t.
      exact (handleDelete_thrower _ _ _ t (run_path env _ w)).
Qed.

(** A [fetch] rejected with [undefined] makes [handleCreate] reject. *)
Lemma handlers_reject_exactly_on_nullish_witness :
  outcome (run (answering (Rejected VUndefined))
             (handleCreate (js "C") (js "D") [] (js "c@x.com")) tt)
  = Threw (messageReadError VUndefined).
Proof.
  destruct (handlers_reject_exactly_on_nullish unit
              (answering (Rejected VUndefined)) tt
              (js "C") (js "D") [] (js "c@x.com") (js "a@x.com"))
    as [[[_ Hall]|(e & thrown & Hin & Hf & _ & Ho & _)] _].
  - specialize (Hall (EFetch (createRequest (js "C") (js "D") [] (js "c@x.com"))
                             (Rejected VUndefined))
                     VUndefined).
    discriminate Hall; [right; left; reflexivity|reflexivity].
  - change (In e [EPreventDefault;
                  EFetch (createRequest (js "C") (js "D") [] (js "c@x.com"))
                         (Rejected VUndefined);
                  EConsoleError VUndefined]) in Hin.
    destruct Hin as [<-|[<-|[<-|[]]]]; try (destruct Hf; fail).
    cbn [failsWith] in Hf. subst thrown. exact Ho.
Defined.

(** ** The request of a delete *)

Lemma handleDelete_confirm {W : Type} (env : Env W) (w : W) custEmail :
  exists rest,
    trace (run env (handleDelete custEmail) w)
    = EConfirm (confirmPrompt custEmail)
               (fst (env bool (Confirm (confirmPrompt custEmail)) w)) :: rest.
Proof.
  unfold handleDelete. cbn [bind trigger run].
  fold (confirmPrompt custEmail).
  destruct (env bool (Confirm (confirmPrompt custEmail)) w) as [answer w1].
  cbn [trace fst]. eexists. reflexivity.
Qed.

Lemma handleDelete_confirmed {W : Type} (env : Env W) (w : W) custEmail :
  fst (env bool (Confirm (confirmPrompt custEmail)) w) = true ->
  let r := run env (handleDelete custEmail) w in
  match encodeOpt custEmail with
  | Some encoded =>
      exists answer rest,
        trace r = EConfirm (confirmPrompt custEmail) true
                  :: EFetch (deleteRequest encoded) answer :: rest
        /\ AfterWrite (js "Error deleting customer") [] answer rest (outcome r)
  | None =>
      trace r = [EConfirm (confirmPrompt custEmail) true;
                 EConsoleError (VError (js "URIError") (js "URI malformed"));
                 EAlert (VStr (js "URI malformed"))]
      /\ outcome r = Returned tt
  end.
Proof.
  intros Hyes r.
  destruct (handleDelete_confirm env w custEmail) as [rest0 Htr0].
  rewrite Hyes in Htr0.
  pose proof (run_path env (handleDelete custEmail) w) as HP.
  apply handleDelete_paths in HP. fold r in HP, Htr0.
  destruct HP as (confirmed & rest & Htr & HP).
  rewrite Htr in Htr0. injection Htr0 as -> _.
  unfold encodeURIComponent in HP.
  destruct (encodeOpt custEmail) as [encoded|].
  - destruct HP as (answer & rest' & -> & HA).
    exists answer, rest'. split; [exact Htr|exact HA].
  - destruct HP as [-> Ho]. split; [exact Htr|exact Ho].
Qed.

Lemma handleDelete_request custEmail tr o req answer :
  Path (handleDelete custEmail) tr o ->
  In (EFetch req answer) tr ->
  exists encoded,
    encodeOpt custEmail = Some encoded /\ req = deleteRequest encoded.
Proof.
  intros HP Hin. apply handleDelete_paths in HP.
  destruct HP as (confirmed & rest & -> & HP).
  destruct Hin as [Hin|Hin]; [discriminate Hin|].
  destruct confirmed.
  - unfold encodeURIComponent in HP.
    destruct (encodeOpt custEmail) as [encoded|].
    + destruct HP as (a & rest' & -> & HA).
      destruct Hin as [Hin|Hin].
      * injection Hin as <- _. exists encoded. split; reflexivity.
      * destruct (after_write_no_fetch _ _ _ _ _ _ _ HA eq_refl Hin).
    + destruct HP as [-> _].
      destruct (quiet_no_fetch _ _ _ (caught_quiet _) Hin).
  - destruct HP as [-> _]. destruct Hin.
Qed.

(** X7.  An email that holds an unpaired surrogate cannot be encoded: once the
    prompt is confirmed, [handleDelete] sends no request and does not call
    [mutate]; it logs the URIError of [encodeURIComponent], shows
    [URI malformed] and returns. *)
Theorem delete_malformed_email_sends_nothing :
  forall (W : Type) (env : Env W) (w : W) (custEmail : jsstring),
    fst (env bool (Confirm (confirmPrompt custEmail)) w) = true ->
    encodeOpt custEmail = None ->
    let r := run env (handleDelete custEmail) w in
    trace r = [EConfirm (confirmPrompt custEmail) true;
               EConsoleError (VError (js "URIError") (js "URI malformed"));
               EAlert (VStr (js "URI malformed"))]
    /\ outcome r = Returned tt.
Proof.
  intros W env w custEmail Hyes Hnone r.
  pose proof (handleDelete_confirmed env w custEmail Hyes) as H.
  cbv zeta in H. rewrite Hnone in H. exact H.
Qed.

Lemma delete_malformed_email_sends_nothing_witness :
  trace (run (answering (Rejected VUndefined))
           (handleDelete (js "a@x.com" ++ [0xD83D])) tt)
  = [EConfirm (confirmPrompt (js "a@x.com" ++ [0xD83D])) true;
     EConsoleError (VError (js "URIError") (js "URI malformed"));
     EAlert (VStr (js "URI malformed"))]
  /\ outcome (run (answering (Rejected VUndefined))
                (handleDelete (js "a@x.com" ++ [0xD83D])) tt) = Returned tt.
Proof.
  apply (delete_malformed_email_sends_nothing unit
           (answering (Rejected VUndefined)) tt (js "a@x.com" ++ [0xD83D]));
    reflexivity.
Defined.

(** X8.  An email without surrogates is always encoded: once the prompt is
    confirmed, [handleDelete] sends its DELETE request for the encoded
    email, right after the prompt. *)
Theorem confirmed_delete_sends_request :
  forall (W : Type) (env : Env W) (w : W) (custEmail : jsstring),
    fst (env bool (Confirm (confirmPrompt custEmail)) w) = true ->
    existsb isSurrogate custEmail = false ->
    exists encoded answer rest,
      encodeOpt custEmail = Some encoded
      /\ trace (run env (handleDelete custEmail) w)
         = EConfirm (confirmPrompt custEmail) true
           :: EFetch (deleteRequest encoded) answer :: rest.
Proof.
  intros W env w custEmail Hyes Hplain.
  destruct (encodeOpt_plain custEmail Hplain) as [encoded E].
  pose proof (handleDelete_confirmed env w custEmail Hyes) as H.
  cbv zeta in H. rewrite E in H.
  destruct H as (answer & rest & Htr & _).
  exists encoded, answer, rest. split; [exact E|exact Htr].
Qed.

Lemma confirmed_delete_sends_request_witness :
  exists encoded answer rest,
    encodeOpt (js "a@x.com") = Some encoded
    /\ trace (run simEnv (handleDelete (js "a@x.com")) world0)
       = EConfirm (confirmPrompt (js "a@x.com")) true
         :: EFetch (deleteRequest encoded) answer :: rest.
Proof.
  apply (confirmed_delete_sends_request World simEnv world0 (js "a@x.com"));
    reflexivity.
Defined.

(** X9.  The email never leaves the query parameter it is sent in: every
    request of [handleDelete] is the DELETE of [/api/customers?email=]
    followed by the encoded email, and the encoded email holds only
    unreserved characters and percent signs (no [&], [=], [#], [?], [/] or
    space). *)
Theorem delete_request_is_url_safe :
  forall (W : Type) (env : Env W) (w : W) (custEmail : jsstring)
         (req : Request) (answer : FetchOutcome),
    forallb isCodeUnit custEmail = true ->
    In (EFetch req answer) (trace (run env (handleDelete custEmail) w)) ->
    exists encoded,
      req = deleteRequest encoded
      /\ encodeOpt custEmail = Some encoded
      /\ forallb urlSafe encoded = true.
Proof.
  intros W env w custEmail req answer Hunits Hin.
  destruct (handleDelete_request _ _ _ _ _ (run_path env _ w) Hin)
    as (encoded & E & ->).
  exists encoded. split; [reflexivity|]. split; [exact E|].
  exact (encodeOpt_safe _ _ Hunits E).
Qed.

Lemma delete_request_is_url_safe_witness :
  exists encoded,
    deleteRequest (js "a%26b%3D1%40x.com") = deleteRequest encoded
    /\ encodeOpt (js "a&b=1@x.com") = Some encoded
    /\ forallb urlSafe encoded = true.
Proof.
  apply (delete_request_is_url_safe unit
           (answering (Rejected VUndefined)) tt (js "a&b=1@x.com")
           (deleteRequest (js "a%26b%3D1%40x.com")) (Rejected VUndefined)).
  - reflexivity.
  - right. left. reflexivity.
Defined.

(** X10.  The request names the customer: two calls of [handleDelete] that send
    the same request were given the same email, so no two emails share a
    DELETE url. *)
Theorem delete_request_identifies_email :
  forall (W W' : Type) (env : Env W) (env' : Env W') (w : W) (w' : W')
         (custEmail custEmail' : jsstring) (req : Request)
         (answer answer' : FetchOutcome),
    forallb isCodeUnit custEmail = true ->
    forallb isCodeUnit custEmail' = true ->
    In (EFetch req answer) (trace (run env (handleDelete custEmail) w)) ->
    In (EFetch req answer') (trace (run env' (handleDelete custEmail') w')) ->
    custEmail = custEmail'.
Proof.
  intros W W' env env' w w' custEmail custEmail' req answer answer'
         Hunits Hunits' Hin Hin'.
  destruct (handleDelete_request _ _ _ _ _ (run_path env _ w) Hin)
    as (encoded & E & Hreq).
  destruct (handleDelete_request _ _ _ _ _ (run_path env' _ w') Hin')
    as (encoded' & E' & Hreq').
  rewrite Hreq in Hreq'. unfold deleteRequest in Hreq'.
  injection Hreq' as Hurl. subst encoded'.
  exact (encodeOpt_inj _ _ _ Hunits Hunits' E E').
Qed.

Lemma delete_request_identifies_email_witness :
  js "a@x.com" = js "a@x.com".
Proof.
  apply (delete_request_identifies_email unit unit
           (answering (Rejected VUndefined)) (answering (Rejected VNull))
           tt tt (js "a@x.com") (js "a@x.com")
           (deleteRequest (js "a%40x.com"))
           (Rejected VUndefined) (Rejected VNull));
    try reflexivity; right; left; reflexivity.
Defined.

(** ** The fetcher *)

(** X11.  The [fetcher] sends one GET request to the url it is given, without
    headers or body, and resolves only with the parsed body of a response
    inside 2xx.  It rejects with the reason of a rejected [fetch], and with
    the error of a body that cannot be parsed, also when the status is
    inside 2xx. *)
Theorem fetcher_resolves_with_parsed_success_only :
  forall (W : Type) (env : Env W) (w : W) (url : jsstring),
    let r := run env (fetcher url) w in
    exists answer,
      trace r = [EFetch {| url := url; method := js "GET"; headers := [];
                           body := None |} answer]
      /\ (forall data,
            outcome r = Returned data
            <-> exists res, answer = Responded res /\ ok res = true
                            /\ json res = Normal data)
      /\ (forall reason, answer = Rejected reason -> outcome r = Threw reason)
      /\ (forall res thrown, answer = Responded res ->
            json res = Abrupt thrown -> outcome r = Threw thrown).
Proof.
  intros W env w u r.
  destruct (fetcher_paths _ _ _ (run_path env (fetcher u) w))
    as (answer & Htr & Ho).
  fold r in Htr, Ho. exists answer. split; [exact Htr|].
  rewrite Ho. split; [|split].
  - intros data. split.
    + destruct answer as [reason|res]; [discriminate|].
      destruct (json res) as [v|thrown] eqn:Hj; [|discriminate].
      destruct (ok res) eqn:Hok; [|discriminate].
      intros H. injection H as <-. exists res. auto.
    + intros (res & -> & Hok & Hj). rewrite Hj, Hok. reflexivity.
  - intros reason ->. reflexivity.
  - intros res thrown -> Hj. rewrite Hj. reflexivity.
Qed.

(** ** The render pass *)

Ltac pure_cases :=
  repeat match goal with
    | |- context [eval ?c] => destruct c; cbn [eval bind]
    | |- context [if ?b then _ else _] => destruct b; cbn [eval bind]
    end.

Lemma renderRow_pure cust :
  (exists r, renderRow cust = Ret r
             /\ rowKey r = emailCell r /\ deleteArg r = emailCell r)
  \/ exists t, renderRow cust = Throw t.
Proof.
  unfold renderRow. pure_cases;
    solve [ left; eexists; split; [reflexivity|split; reflexivity]
          | right; eexists; reflexivity ].
Qed.

Lemma mapRows_pure custs :
  (exists rows, mapRows custs = Ret rows
                /\ length rows = length custs
                /\ Forall (fun r => rowKey r = emailCell r
                                    /\ deleteArg r = emailCell r) rows)
  \/ exists t, mapRows custs = Throw t.
Proof.
  induction custs as [|cust custs IH]; cbn [mapRows].
  - left. exists []. split; [reflexivity|]. split; [reflexivity|constructor].
  - destruct (renderRow_pure cust) as [(r & -> & Hr)|(t & ->)]; cbn [bind].
    + destruct IH as [(rows & -> & Hlen & Hrows)|(t & ->)]; cbn [bind].
      * left. exists (r :: rows). split; [reflexivity|].
        split; [simpl; rewrite Hlen; reflexivity|]. constructor; assumption.
      * right. exists t. reflexivity.
    + right. exists t. reflexivity.
Qed.

Lemma error_message_read e :
  toBoolean e = true -> getProp e (js "message") = Normal (optGet e (js "message")).
Proof. destruct e; try discriminate; reflexivity. Qed.

Lemma heading_of_array custs :
  nullish (optGet (VArr custs) (js "length")) (VNum 0)
  = VNum (Z.of_nat (length custs)).
Proof. reflexivity. Qed.

Lemma heading_of_falsy d :
  toBoolean d = false ->
  nullish (optGet d (js "length")) (VNum 0) = VNum 0.
Proof.
  destruct d as [| |b|n|s|l|props|n m]; try discriminate; try reflexivity.
  destruct s; [reflexivity|discriminate].
Qed.

(** A render is one [useSWR] and what the markup makes of its answer. *)
Lemma render_run {W : Type} (env : Env W) (w : W) :
  let swr := swrOf env w in
  let r := run env render w in
  let line := if toBoolean (error swr)
              then Some (optGet (error swr) (js "message")) else None in
  trace r = [EUseSWR customersKey swr]
  /\ if toBoolean (data swr) then
       match data swr with
       | VArr custs =>
           (exists rows,
              mapRows custs = Ret rows
              /\ outcome r
                 = Returned {| count := VNum (Z.of_nat (length custs));
                               loadingLine := isLoading swr;
                               errorLine := line; table := Some rows |})
           \/ (exists t, mapRows custs = Throw t /\ outcome r = Threw t)
       | _ => outcome r
              = Threw (typeError (js "customers.map is not a function"))
       end
     else outcome r
          = Returned {| count := VNum 0; loadingLine := isLoading swr;
                        errorLine := line; table := None |}.
Proof.
  intros swr r line. subst swr r line. unfold swrOf, render.
  cbn [bind trigger run]. fold customersKey.
  destruct (env SWRResponse (UseSWR customersKey) w) as [swr w1].
  cbn [fst trace outcome]. split; [|destruct (toBoolean (data swr)) eqn:Hd].
  - assert (Hpure : forall (p : Prog View), (exists v, p = Ret v) \/ (exists t, p = Throw t) ->
              trace (run env p w1) = []).
    { intros p [[v ->]|[t ->]]; reflexivity. }
    f_equal. apply Hpure.
    destruct (toBoolean (error swr)) eqn:He;
      [rewrite (error_message_read _ He)|]; cbn [eval bind];
      (destruct (toBoolean (data swr)) eqn:Hd; cbn [bind];
       [|left; eexists; reflexivity]);
      (destruct (data swr) as [| |b|n|s|custs|props|n m]; cbn [renderRows bind];
       try (right; eexists; reflexivity));
      (destruct (mapRows_pure custs) as [(rows & -> & _)|(t & ->)]; cbn [bind];
       [left; eexists; reflexivity|right; eexists; reflexivity]).
  - destruct (toBoolean (error swr)) eqn:He;
      [rewrite (error_message_read _ He)|]; cbn [eval bind];
      (destruct (data swr) as [| |b|n|s|custs|props|n m] eqn:Hdata;
         cbn [renderRows bind run outcome]; try reflexivity);
      (destruct (mapRows_pure custs) as [(rows & Hrows & _)|(t & Hrows)];
       rewrite Hrows; cbn [bind run outcome];
       [left; exists rows|right; exists t]; split; reflexivity).
  - rewrite (heading_of_falsy _ Hd).
    destruct (toBoolean (error swr)) eqn:He;
      [rewrite (error_message_read _ He)|]; reflexivity.
Qed.

(** X12.  The heading counts the rows: in every render that returns, the number
    before [Customers] is the number of rows of the table, and zero when
    there is no table. *)
Theorem heading_counts_rows :
  forall (W : Type) (env : Env W) (w : W) (v : View),
    outcome (run env render w) = Returned v ->
    count v = VNum (Z.of_nat (length (rowsOf v))).
Proof.
  intros W env w v Hv.
  destruct (render_run env w) as [_ H]. rewrite Hv in H.
  destruct (toBoolean (data (swrOf env w))).
  - destruct (data (swrOf env w)) as [| |b|n|s|custs|props|n m];
      try discriminate H.
    destruct H as [(rows & Hrows & H)|(t & _ & H)]; [|discriminate H].
    injection H as ->. unfold rowsOf. cbn [count table].
    destruct (mapRows_pure custs) as [(rows' & Hrows' & Hlen & _)|(t & Ht)];
      [|congruence].
    rewrite Hrows in Hrows'. injection Hrows' as <-.
    rewrite Hlen. reflexivity.
  - injection H as ->. reflexivity.
Qed.

(** X13.  The delete button of a row deletes the customer the row shows: in
    every render that returns, the email a row passes to [handleDelete]
    and the key of the row are the email shown in its email cell. *)
Theorem row_deletes_the_email_it_shows :
  forall (W : Type) (env : Env W) (w : W) (v : View),
    outcome (run env render w) = Returned v ->
    Forall (fun r => deleteArg r = emailCell r /\ rowKey r = emailCell r)
           (rowsOf v).
Proof.
  intros W env w v Hv.
  destruct (render_run env w) as [_ H]. rewrite Hv in H.
  destruct (toBoolean (data (swrOf env w))).
  - destruct (data (swrOf env w)) as [| |b|n|s|custs|props|n m];
      try discriminate H.
    destruct H as [(rows & Hrows & H)|(t & _ & H)]; [|discriminate H].
    injection H as ->. unfold rowsOf. cbn [table].
    destruct (mapRows_pure custs) as [(rows' & Hrows' & _ & Hall)|(t & Ht)];
      [|congruence].
    rewrite Hrows in Hrows'. injection Hrows' as <-.
    apply Forall_forall. intros r Hr.
    rewrite Forall_forall in Hall. destruct (Hall r Hr). auto.
  - injection H as ->. constructor.
Qed.

(** X14.  For every state of the cache with the types [useSWR] is given
    ([Customers] or nothing as data, an [ApiError] or nothing as error) the
    render returns after its one [useSWR]: the heading counts the
    customers, the table is there exactly when the data is and holds their
    rows in order, and the error line shows the message of the error, not
    its code, beside a list that is still cached. *)
Theorem render_view_of_typed_cache :
  forall (W : Type) (env : Env W) (w : W)
         (listed : option Customers) (failure : option ApiError),
    data (swrOf env w)
    = match listed with Some cs => customersToJs cs | None => VUndefined end ->
    error (swrOf env w)
    = match failure with Some err => apiErrorToJs err | None => VUndefined end ->
    let r := run env render w in
    trace r = [EUseSWR customersKey (swrOf env w)]
    /\ outcome r
       = Returned
           {| count := VNum (Z.of_nat (length (match listed with
                                               | Some cs => cs
                                               | None => []
                                               end)));
              loadingLine := isLoading (swrOf env w);
              errorLine := option_map (fun err => VStr (message err)) failure;
              table := option_map (map customerRow) listed |}.
Proof.
  intros W env w listed failure Hd He r.
  destruct (render_run env w) as [Htr H]. fold r in Htr, H.
  split; [exact Htr|].
  rewrite Hd, He in H.
  assert (Hline :
    (if toBoolean (match failure with
                   | Some err => apiErrorToJs err
                   | None => VUndefined
                   end)
     then Some (optGet (match failure with
                        | Some err => apiErrorToJs err
                        | None => VUndefined
                        end) (js "message"))
     else None)
    = option_map (fun err => VStr (message err)) failure).
  { destruct failure; reflexivity. }
  rewrite Hline in H.
  destruct listed as [cs|]; cbn [toBoolean customersToJs] in H.
  - destruct H as [(rows & Hrows & H)|(t & Hrows & _)];
      rewrite mapRows_customers in Hrows; [|discriminate Hrows].
    injection Hrows as <-. rewrite H, length_map. reflexivity.
  - exact H.
Qed.

(** X15.  Data that is truthy but not an array makes the render throw: the page
    calls [customers.map] on it, so an object or a text cached as the list
    fails with a TypeError instead of showing a view. *)
Theorem render_throws_on_non_array_data :
  forall (W : Type) (env : Env W) (w : W),
    toBoolean (data (swrOf env w)) = true ->
    isArray (data (swrOf env w)) = false ->
    outcome (run env render w)
    = Threw (typeError (js "customers.map is not a function")).
Proof.
  intros W env w Ht Ha.
  destruct (render_run env w) as [_ H]. rewrite Ht in H.
  destruct (data (swrOf env w)); try exact H. discriminate Ha.
Qed.

(** ** The cached list is the store's list *)

Lemma render_listed {W : Type} (env : Env W) (w : W) cs :
  data (swrOf env w) = customersToJs cs ->
  error (swrOf env w) = VUndefined ->
  outcome (run env render w)
  = Returned {| count := VNum (Z.of_nat (length cs));
                loadingLine := isLoading (swrOf env w);
                errorLine := None;
                table := Some (map customerRow cs) |}.
Proof.
  intros Hd He. destruct (render_run env w) as [_ H].
  rewrite Hd, He in H. cbn [toBoolean customersToJs] in H.
  destruct H as [(rows & Hrows & H)|(t & Hrows & _)];
    rewrite mapRows_customers in Hrows; [|discriminate Hrows].
  injection Hrows as <-. rewrite H, length_map. reflexivity.
Qed.

Lemma render_answered (w : World) cs :
  useSWR customersKey w
  = ({| data := customersToJs cs; error := VUndefined; isLoading := false |},
     w) ->
  outcome (run simEnv render w)
  = Returned {| count := VNum (Z.of_nat (length cs)); loadingLine := false;
                errorLine := None; table := Some (map customerRow cs) |}.
Proof.
  intros Hu.
  assert (Hs : swrOf simEnv w
               = {| data := customersToJs cs; error := VUndefined;
                    isLoading := false |}).
  { unfold swrOf. cbn [simEnv]. rewrite Hu. reflexivity. }
  rewrite (render_listed simEnv w cs); rewrite Hs; reflexivity.
Qed.

(** C8.  Whatever list the store returns is what the cache holds and what
    the page shows, in the store's order, none reordered, left out or
    merged.  The [fetcher] passes the store's list on as it is.  In the
    cache, every fetch that is started for the customers key, whatever the
    entry held before, settles with that list as the value.  After a
    re-fetch by [mutate], from every state of the cache (idle, loading,
    resolved on an older list, failed), and after the fetch of a first
    read, [useSWR] answers with the store's list, and the render shows one
    row per customer of the store in the store's order, with the heading
    counting them. *)
Theorem list_is_kept_in_store_order :
  forall (w : World) (held : ResourceCache.CachedResource),
    ResourceCache.wellFormed customersKey (cache w) ->
    online (remote w) = true ->
    let cs := stored (remote w) in
    let answer := {| data := customersToJs cs; error := VUndefined;
                     isLoading := false |} in
    let view := {| count := VNum (Z.of_nat (length cs)); loadingLine := false;
                   errorLine := None; table := Some (map customerRow cs) |} in
    let started :=
      ResourceCache.start Remote remoteRead customersKey held (cacheState w) in
    let refetched := snd (mutate customersKey w) in
    let fetched := settles customersKey (snd (useSWR customersKey w)) in
    fst (remoteRead customersKey (remote w)) = Normal (customersToJs cs)
    /\ ResourceCache.value
         (ResourceCache.entryOf Remote customersKey
            (ResourceCache.settle Remote remoteRead customersKey started))
       = Some (customersToJs cs)
    /\ (fst (useSWR customersKey refetched) = answer
        /\ outcome (run simEnv render refetched) = Returned view)
    /\ (ResourceCache.find customersKey (ResourceCache.entries (cache w)) = None ->
        fst (useSWR customersKey fetched) = answer
        /\ outcome (run simEnv render fetched) = Returned view).
Proof.
  intros w held Hwf Ho cs answer view started refetched fetched.
  pose proof (remoteRead_online _ Ho) as Hread.
  split; [exact Hread|]. split; [|split].
  - destruct (settle_start Remote remoteRead customersKey held (cacheState w)
                (proj1 Hwf)) as (_ & He & _).
    subst started. rewrite He. cbn [cacheState fst].
    rewrite Hread. reflexivity.
  - destruct (mutate_spec w Hwf Ho) as (_ & _ & _ & _ & (e & Hf & Hv & Hs & He) & _).
    fold refetched in Hf.
    pose proof (useSWR_resolved refetched e _ Hf Hv Hs He) as Hu.
    split; [rewrite Hu; reflexivity|].
    exact (render_answered refetched cs Hu).
  - intros Hnone.
    destruct (first_read w Hnone (proj1 Hwf) Ho) as [_ Hu].
    fold fetched in Hu. split; [rewrite Hu; reflexivity|].
    exact (render_answered fetched cs Hu).
Qed.

Lemma list_is_kept_in_store_order_witness :
  fst (useSWR customersKey (snd (mutate customersKey worldStale)))
  = {| data := customersToJs [customerC; customerC; customerA];
       error := VUndefined; isLoading := false |}
  /\ outcome (run simEnv render (snd (mutate customersKey worldStale)))
     = Returned {| count := VNum 3; loadingLine := false; errorLine := None;
                   table := Some [customerRow customerC; customerRow customerC;
                                  customerRow customerA] |}.
Proof.
  assert (Hwf : ResourceCache.wellFormed customersKey (cache worldStale)).
  { split; [constructor|]. intros H. discriminate H. }
  destruct (list_is_kept_in_store_order worldStale staleEntry Hwf eq_refl)
    as (_ & _ & H & _).
  exact H.
Defined.

(** ** The statements at concrete runs *)

Lemma thrown_value_is_logged_and_alerted_witness :
  reports (trace (run (answering (Rejected failedToFetch))
                    (handleCreate (js "C") (js "D") [] (js "c@x.com")) tt))
  = [EConsoleError failedToFetch; EAlert (VStr (js "Failed to fetch"))]
  /\ outcome (run (answering (Rejected failedToFetch))
                (handleCreate (js "C") (js "D") [] (js "c@x.com")) tt)
     = Returned tt.
Proof.
  destruct (thrown_value_is_logged_and_alerted unit
              (answering (Rejected failedToFetch)) tt
              (js "C") (js "D") [] (js "c@x.com") (js "a@x.com")
              (EFetch (createRequest (js "C") (js "D") [] (js "c@x.com"))
                      (Rejected failedToFetch))
              failedToFetch eq_refl eq_refl) as [H _].
  apply H. right. left. reflexivity.
Defined.

Lemma heading_counts_rows_witness :
  outcome (run (cached swrListed) render tt) = Returned viewListed
  /\ count viewListed = VNum 2.
Proof.
  split; [reflexivity|].
  apply (heading_counts_rows unit (cached swrListed) tt viewListed).
  reflexivity.
Defined.

Lemma row_deletes_the_email_it_shows_witness :
  Forall (fun r => deleteArg r = emailCell r /\ rowKey r = emailCell r)
         [customerRow customerA; customerRow customerC].
Proof.
  apply (row_deletes_the_email_it_shows unit (cached swrListed) tt viewListed).
  reflexivity.
Defined.

Lemma render_view_of_typed_cache_witness :
  trace (run (cached swrStale) render tt) = [EUseSWR customersKey swrStale]
  /\ outcome (run (cached swrStale) render tt)
     = Returned {| count := VNum 1; loadingLine := false;
                   errorLine := Some (VStr (js "Store is down"));
                   table := Some [customerRow customerA] |}.
Proof.
  apply (render_view_of_typed_cache unit (cached swrStale) tt
           (Some [customerA])
           (Some {| code := js "Unavailable"; message := js "Store is down" |}));
    reflexivity.
Defined.

Lemma render_throws_on_non_array_data_witness :
  outcome (run (cached swrObject) render tt)
  = Threw (typeError (js "customers.map is not a function")).
Proof.
  apply (render_throws_on_non_array_data unit (cached swrObject) tt);
    reflexivity.
Defined.

(** A rejection with [undefined] is not caught: the promise of the handler
    rejects with the TypeError of reading [message]. *)
Example create_rejects_on_undefined_reason :
  run (answering (Rejected VUndefined))
      (handleCreate (js "C") (js "D") [] (js "c@x.com")) tt
  = {| outcome :=
         Threw (typeError
           (js "Cannot read properties of undefined (reading 'message')"));
       final := tt;
       trace := [EPreventDefault;
                 EFetch (createRequest (js "C") (js "D") [] (js "c@x.com"))
                        (Rejected VUndefined);
                 EConsoleError VUndefined] |}.
Proof. reflexivity. Qed.

(** The separators of a query string are not among the characters of an
    encoded email, and an email with such characters is escaped. *)
Example separators_are_escaped :
  existsb urlSafe (js "&=#?/+ ") = false
  /\ encodeOpt (js "a&b=1@x.com") = Some (js "a%26b%3D1%40x.com").
Proof. split; reflexivity. Qed.

(** In the modelled world a create that went through leaves the dialog
    closed on the empty form, and a refused one leaves the form as it
    was. *)
Example create_form_in_the_modelled_world :
  form (final (run simEnv
                 (handleCreate (js "C") (js "D") [] (js "c@x.com")) world0))
  = emptyForm false
  /\ form (final (run simEnv
                    (handleCreate (js "C") (js "D") [] (js "c@x.com"))
                    worldTaken))
     = form worldTaken.
Proof. split; vm_compute; reflexivity. Qed.
